(** * AdamW (optimizer.py): a shallow embedding and its specification

    The optimizer keeps, per parameter, a step counter and two moving
    averages, and [step] walks the parameter groups updating every
    parameter that carries a dense gradient.

    Numbers.  Python floats and tensor elements are taken from one
    carrier [F] with the operations of the class [Scalar]; nothing is
    assumed about them in the model itself.  Two carriers are provided:
    binary64 ([float], executable, with IEEE comparisons and NaN) and the
    real numbers ([R], exact arithmetic).  Algebraic identities that a
    statement needs are collected in [ScalarLaws] and are proved for [R].

    Memory.  Parameters are Python objects referred to by identity: the
    heap maps an identity to the parameter's record, groups hold
    identities, and the optimizer's [state] dictionary is keyed by
    identity.  A parameter listed twice is the same object and is updated
    at each visit.

    Tensors are the lists of their elements.  A gradient has the shape of
    its parameter and the moments are created by [zeros_like], so the
    element-wise operations always meet lists of one length; statements
    about elements are made at the indices present in all operands.

    Errors.  [step] returns the world it has reached together with the
    exception, so what was written before an exception stays written.
    Besides the [RuntimeError] for sparse gradients the model keeps the
    exceptions of Python's own float arithmetic in the bias correction
    ([math.sqrt] of a negative number, division by zero, overflow of
    [**]); tensor arithmetic does not raise.

    Library behaviour taken from the documentation of torch:
    [addcdiv_] computes [t + value * (t1 / t2)], [add_] with [alpha]
    computes [t + alpha * other], and the base constructor builds one
    group from a plain parameter list and refuses an empty one. *)

From Stdlib Require Import PrimFloat.
From Stdlib Require Import ZArith List String Bool Lia Reals Lra.
From stdpp Require Import base option list gmap functions.

Unset Default Proof Using.
Local Open Scope string_scope.
Local Open Scope list_scope.

(** ** Numbers *)

Class Scalar (F : Type) : Type := {
  s_zero : F;                       (* 0.0 *)
  s_one : F;                        (* 1.0 *)
  s_dec : positive -> nat -> F;     (* the decimal literal m / 10^k *)
  s_add : F -> F -> F;
  s_sub : F -> F -> F;
  s_mul : F -> F -> F;
  s_div : F -> F -> F;              (* element-wise division of tensors *)
  s_neg : F -> F;
  s_sqrt : F -> F;                  (* element-wise square root of tensors *)
  s_pow : F -> nat -> F;
  s_lt : F -> F -> bool;
  s_le : F -> F -> bool;
  s_eq : F -> F -> bool;
  s_isinf : F -> bool
}.

(** Identities of exact arithmetic used by some statements. *)
Class ScalarLaws (F : Type) `{Scalar F} : Prop := {
  s_add_neg : forall a b : F, s_add a (s_neg b) = s_sub a b;
  s_mul_neg_l : forall a b : F, s_mul (s_neg a) b = s_neg (s_mul a b);
  s_mul_zero_r : forall a : F, s_mul a s_zero = s_zero;
  s_add_zero_l : forall a : F, s_add s_zero a = a
}.

(** ** Exceptions *)

Inductive exn (F : Type) : Type :=
| ValueError (msg : string) (args : list F)
| RuntimeError (msg : string)
| ZeroDivisionError (msg : string)
| OverflowError (msg : string).
Arguments ValueError {F} msg args.
Arguments RuntimeError {F} msg.
Arguments ZeroDivisionError {F} msg.
Arguments OverflowError {F} msg.

(** ** Data *)

Inductive Gradient (F : Type) : Type :=
| DenseGrad (values : list F)
| SparseGrad (indices : list nat) (values : list F).
Arguments DenseGrad {F} values.
Arguments SparseGrad {F} indices values.

Definition is_sparse {F} (g : Gradient F) : bool :=
  match g with DenseGrad _ => false | SparseGrad _ _ => true end.

(** [p.data] and [p.grad] ([None] when no gradient is attached). *)
Record Param (F : Type) : Type := mkParam {
  p_data : list F;
  p_grad : option (Gradient F)
}.
Arguments mkParam {F} p_data p_grad.
Arguments p_data {F} _.
Arguments p_grad {F} _.

(** [self.state[p]]: the keys "step", "exp_avg" and "exp_avg_sq". *)
Record State (F : Type) : Type := mkState {
  st_step : nat;
  st_exp_avg : list F;
  st_exp_avg_sq : list F
}.
Arguments mkState {F} st_step st_exp_avg st_exp_avg_sq.
Arguments st_step {F} _.
Arguments st_exp_avg {F} _.
Arguments st_exp_avg_sq {F} _.

(** A parameter group: its parameters and the keys of [defaults]. *)
Record Group (F : Type) : Type := mkGroup {
  g_params : list nat;
  g_lr : F;
  g_betas : F * F;
  g_eps : F;
  g_weight_decay : F;
  g_correct_bias : bool
}.
Arguments mkGroup {F} g_params g_lr g_betas g_eps g_weight_decay g_correct_bias.
Arguments g_params {F} _.
Arguments g_lr {F} _.
Arguments g_betas {F} _.
Arguments g_eps {F} _.
Arguments g_weight_decay {F} _.
Arguments g_correct_bias {F} _.

(** The optimizer object: [self.param_groups] and [self.state]. *)
Record Optimizer (F : Type) : Type := mkOptimizer {
  param_groups : list (Group F);
  state : gmap nat (State F)
}.
Arguments mkOptimizer {F} param_groups state.
Arguments param_groups {F} _.
Arguments state {F} _.

(** Everything [step] can read or write: the parameters, the optimizer,
    and the rest of the program ([env]), which only a closure touches. *)
Record World (F E : Type) : Type := mkWorld {
  heap : nat -> Param F;
  self : Optimizer F;
  env : E
}.
Arguments mkWorld {F E} heap self env.
Arguments heap {F E} _.
Arguments self {F E} _.
Arguments env {F E} _.

(** A computation that may mutate the world and may raise; the world
    reached is returned in both cases. *)
Definition M (F E A : Type) : Type := World F E -> World F E * (exn F + A).

Definition ret {F E A} (a : A) : M F E A := fun w => (w, inr a).
Definition raise {F E A} (e : exn F) : M F E A := fun w => (w, inl e).
Definition bind {F E A B} (m : M F E A) (k : A -> M F E B) : M F E B :=
  fun w => match m w with
           | (w', inr a) => k a w'
           | (w', inl e) => (w', inl e)
           end.

Notation "x <- m ;; k" := (bind m (fun x => k))
  (at level 100, m at next level, right associativity).
Notation "m ;;; k" := (bind m (fun _ => k))
  (at level 100, right associativity).

Section Model.
Context {F : Type} `{Scalar F}.

(** *** Python scalar operations that can raise *)

(** [math.sqrt(x)] *)
Definition math_sqrt (x : F) : exn F + F :=
    if s_lt x s_zero then inl (ValueError "math domain error" [])
    else inr (s_sqrt x).

(** [x ** n] for a float [x] and an int [n] *)
Definition float_pow (x : F) (n : nat) : exn F + F :=
    let r := s_pow x n in
    if negb (s_isinf x) && s_isinf r
    then inl (OverflowError "(34, 'Numerical result out of range')")
    else inr r.

(** [a / b] for floats *)
Definition float_truediv (a b : F) : exn F + F :=
    if s_eq b s_zero then inl (ZeroDivisionError "float division by zero")
    else inr (s_div a b).

(** *** Tensor operations (element-wise) *)

Definition zeros_like (t : list F) : list F := replicate (length t) s_zero.
(** [c * t] *)
Definition t_scale (c : F) (t : list F) : list F := s_mul c <$> t.
(** [a + b] *)
Definition t_add (a b : list F) : list F := zip_with s_add a b.
(** [t.pow(n)] *)
Definition t_pow (t : list F) (n : nat) : list F := (fun x => s_pow x n) <$> t.
(** [t.sqrt()] *)
Definition t_sqrt (t : list F) : list F := s_sqrt <$> t.
(** [t.add_(c)] for a number [c] *)
Definition t_add_scalar (t : list F) (c : F) : list F := (fun x => s_add x c) <$> t.
(** [t.addcdiv_(t1, t2, value=v)]: [t + v * (t1 / t2)] *)
Definition addcdiv (t t1 t2 : list F) (v : F) : list F :=
    zip_with (fun x q => s_add x (s_mul v q)) t (zip_with s_div t1 t2).
(** [t.add_(other, alpha=a)]: [t + a * other] *)
Definition add_alpha (t other : list F) (a : F) : list F :=
    zip_with (fun x y => s_add x (s_mul a y)) t other.

(** *** Construction *)

Definition msg_lr := "Invalid learning rate: {} - should be >= 0.0".
Definition msg_beta := "Invalid beta parameter: {} - should be in [0.0, 1.0[".
Definition msg_eps := "Invalid epsilon value: {} - should be >= 0.0".

(** The [defaults] dictionary handed to the base class. *)
Record Defaults : Type := mkDefaults {
    d_lr : F;
    d_betas : F * F;
    d_eps : F;
    d_weight_decay : F;
    d_correct_bias : bool
  }.

(** [AdamW.__init__]; [super_init] is [torch.optim.Optimizer.__init__]. *)
Definition AdamW_init (super_init : list nat -> Defaults -> exn F + Optimizer F)
      (params : list nat) (lr : F) (betas : F * F) (eps : F)
      (weight_decay : F) (correct_bias : bool) : exn F + Optimizer F :=
    if s_lt lr s_zero then inl (ValueError msg_lr [lr])
    else if negb (s_le s_zero (fst betas) && s_lt (fst betas) s_one)
    then inl (ValueError msg_beta [fst betas])
    else if negb (s_le s_zero (snd betas) && s_lt (snd betas) s_one)
    then inl (ValueError msg_beta [snd betas])
    else if negb (s_le s_zero eps) then inl (ValueError msg_eps [eps])
    else super_init params (mkDefaults lr betas eps weight_decay correct_bias).

(** The keyword defaults of [__init__]. *)
Definition default_lr : F := s_dec 1 3.
Definition default_betas : F * F := (s_dec 9 1, s_dec 999 3).
Definition default_eps : F := s_dec 1 6.
Definition default_weight_decay : F := s_zero.
Definition default_correct_bias : bool := true.

(** The base class constructor, for a plain list of parameters: one
    group holding them all with the defaults, and an empty [state]. *)
Definition Optimizer_init (params : list nat) (d : Defaults) : exn F + Optimizer F :=
    match params with
    | [] => inl (ValueError "optimizer got an empty parameter list" [])
    | _ => inr (mkOptimizer
                  [mkGroup params (d_lr d) (d_betas d) (d_eps d)
                           (d_weight_decay d) (d_correct_bias d)] ∅)
    end.

(** *** One parameter of one group: the body of the inner loop *)

(** The state written when [len(state) == 0]. *)
Definition init_state (p : Param F) : State F :=
    mkState 0 (zeros_like (p_data p)) (zeros_like (p_data p)).

(** "Update first and second moments of the gradients". *)
Definition update_moments (group : Group F) (grad : list F) (st : State F) : State F :=
    let beta1 := fst (g_betas group) in
    let beta2 := snd (g_betas group) in
    mkState (S (st_step st))
            (t_add (t_scale beta1 (st_exp_avg st))
                   (t_scale (s_sub s_one beta1) grad))
            (t_add (t_scale beta2 (st_exp_avg_sq st))
                   (t_scale (s_sub s_one beta2) (t_pow grad 2))).

(** "Bias correction". *)
Definition step_size (group : Group F) (step : nat) : exn F + F :=
    let alpha := g_lr group in
    let beta1 := fst (g_betas group) in
    let beta2 := snd (g_betas group) in
    if g_correct_bias group then
      match float_pow beta1 step with
      | inl e => inl e
      | inr b1t =>
        let bias_correction1 := s_sub s_one b1t in
        match float_pow beta2 step with
        | inl e => inl e
        | inr b2t =>
          let bias_correction2 := s_sub s_one b2t in
          match math_sqrt bias_correction2 with
          | inl e => inl e
          | inr r => float_truediv (s_mul alpha r) bias_correction1
          end
        end
      end
    else inr alpha.

(** "Update parameters". *)
Definition moment_update (group : Group F) (ss : F) (st : State F) (data : list F) : list F :=
    let denom := t_add_scalar (t_sqrt (st_exp_avg_sq st)) (g_eps group) in
    addcdiv data (st_exp_avg st) denom (s_neg ss).

(** "Add weight decay after the main gradient-based updates". *)
Definition decay (group : Group F) (data : list F) : list F :=
    if negb (s_eq (g_weight_decay group) s_zero)
    then add_alpha data data (s_mul (s_neg (g_lr group)) (g_weight_decay group))
    else data.

Section Stateful.
Context {E : Type}.

Definition set_state (p : nat) (st : State F) (w : World F E) : World F E :=
      mkWorld (heap w)
              (mkOptimizer (param_groups (self w)) (<[p := st]> (state (self w))))
              (env w).

Definition set_data (p : nat) (d : list F) (w : World F E) : World F E :=
      mkWorld (<[p := mkParam d (p_grad (heap w p))]> (heap w)) (self w) (env w).

(** The state dictionary of [p] as the update reads it. *)
Definition state_of (w : World F E) (p : nat) : State F :=
      default (init_state (heap w p)) (state (self w) !! p).

Definition update_param (group : Group F) (p : nat) : M F E unit := fun w =>
      match p_grad (heap w p) with
      | None => (w, inr tt)
      | Some g =>
        match g with
        | SparseGrad _ _ =>
          (w, inl (RuntimeError
             "Adam does not support sparse gradients, please consider SparseAdam instead"))
        | DenseGrad grad =>
          let st := update_moments group grad (state_of w p) in
          let w1 := set_state p st w in
          match step_size group (st_step st) with
          | inl e => (w1, inl e)
          | inr ss =>
            let d1 := moment_update group ss st (p_data (heap w1 p)) in
            let d2 := decay group d1 in
            (set_data p d2 w1, inr tt)
          end
        end
      end.

(** [for p in group["params"]] *)
Fixpoint step_group (group : Group F) (ps : list nat) : M F E unit :=
      match ps with
      | [] => ret tt
      | p :: ps' => update_param group p ;;; step_group group ps'
      end.

(** [for group in self.param_groups] *)
Fixpoint step_groups (gs : list (Group F)) : M F E unit :=
      match gs with
      | [] => ret tt
      | g :: gs' => step_group g (g_params g) ;;; step_groups gs'
      end.

(** [loss = None; if closure is not None: loss = closure()] *)
Definition call_closure {L : Type} (closure : option (M F E L)) : M F E (option L) :=
      match closure with
      | Some c => l <- c ;; ret (Some l)
      | None => ret None
      end.

(** [AdamW.step] *)
Definition step {L : Type} (closure : option (M F E L)) : M F E (option L) :=
      loss <- call_closure closure ;;
      (fun w => step_groups (param_groups (self w)) w) ;;;
      ret loss.

(** Calling [step()] repeatedly, whatever each call returns. *)
Fixpoint steps (n : nat) (w : World F E) : World F E :=
      match n with
      | 0 => w
      | S n' => steps n' (fst (step (L := unit) None w))
      end.
(** The iteration order of [step], spelled out: groups in order, and
    in each group its parameters in order; [run] is the loop body
    applied along such a list. *)
Definition schedule (gs : list (Group F)) : list (Group F * nat) :=
      flat_map (fun g => map (pair g) (g_params g)) gs.

Fixpoint run (xs : list (Group F * nat)) : M F E unit :=
      match xs with
      | [] => ret tt
      | x :: xs' => update_param (fst x) (snd x) ;;; run xs'
      end.
End Stateful.
End Model.

(** ** The two carriers *)

(** *** binary64 *)

Fixpoint float_of_pos (p : positive) : float :=
  match p with
  | xH => 1%float
  | xO q => (2 * float_of_pos q)%float
  | xI q => (2 * float_of_pos q + 1)%float
  end.

Fixpoint float_pow10 (k : nat) : float :=
  match k with
  | 0 => 1%float
  | S k' => (10 * float_pow10 k')%float
  end.

(** Powers by repeated multiplication (the C library's [pow] agrees with
    it up to rounding, and exactly for the exponents 0 and 1). *)
Fixpoint float_npow (x : float) (n : nat) : float :=
  match n with
  | 0 => 1%float
  | S n' => (x * float_npow x n')%float
  end.

#[export] Instance float_Scalar : Scalar float := {|
  s_zero := 0%float;
  s_one := 1%float;
  s_dec m k := (float_of_pos m / float_pow10 k)%float;
  s_add := PrimFloat.add;
  s_sub := PrimFloat.sub;
  s_mul := PrimFloat.mul;
  s_div := PrimFloat.div;
  s_neg := PrimFloat.opp;
  s_sqrt := PrimFloat.sqrt;
  s_pow := float_npow;
  s_lt := PrimFloat.ltb;
  s_le := PrimFloat.leb;
  s_eq := PrimFloat.eqb;
  s_isinf := PrimFloat.is_infinity
|}.

(** *** Real numbers *)

#[export] Instance R_Scalar : Scalar R := {|
  s_zero := 0%R;
  s_one := 1%R;
  s_dec m k := (IZR (Zpos m) / 10 ^ k)%R;
  s_add := Rplus;
  s_sub := Rminus;
  s_mul := Rmult;
  s_div := Rdiv;
  s_neg := Ropp;
  s_sqrt := R_sqrt.sqrt;
  s_pow := pow;
  s_lt a b := if Rlt_dec a b then true else false;
  s_le a b := if Rle_dec a b then true else false;
  s_eq a b := if Req_dec_T a b then true else false;
  s_isinf _ := false
|}.

#[export] Instance R_ScalarLaws : ScalarLaws R.
Proof.
  split; intros; simpl; ring.
Qed.

(** A world with one optimizer object and nothing else of interest. *)
Definition world_of {F} (h : nat -> Param F) (o : Optimizer F) : World F unit :=
  mkWorld h o tt.

(** A heap in which every parameter is an empty tensor without gradient,
    except the ones listed. *)
Definition empty_heap {F} : nat -> Param F := fun _ => mkParam [] None.

(** A closure that only counts its calls in the environment and
    returns [l]. *)
Definition counting_closure {F L} (l : L) : M F nat L :=
  fun w => (mkWorld (heap w) (self w) (S (env w)), inr l).

(** One group with the default betas, epsilon, weight decay and bias
    correction, holding the single parameter 0 with one element [x] and
    the dense gradient [g]. *)
Definition default_group {F} `{Scalar F} (lr : F) : Group F :=
  mkGroup [0] lr default_betas default_eps default_weight_decay default_correct_bias.

Definition one_param_world {F} `{Scalar F} (lr x g : F) : World F unit :=
  world_of (<[0 := mkParam [x] (Some (DenseGrad [g]))]> empty_heap)
           (mkOptimizer [default_group lr] ∅).

(** The bias-corrected step size at the default betas, over the reals. *)
Definition R_ss (lr : R) (n : nat) : R :=
  (lr * R_sqrt.sqrt (1 - (999 / 1000) ^ n) / (1 - (9 / 10) ^ n))%R.

(** *** Concrete inputs *)

(** The default configuration over the reals with a chosen weight decay,
    and the parameter 0 = [1] with gradient [1/2]. *)
Definition R_group (weight_decay : R) : Group R :=
  mkGroup [0] default_lr default_betas default_eps weight_decay true.

Definition R_world (weight_decay : R) : World R unit :=
  world_of (<[0 := mkParam [1%R] (Some (DenseGrad [(1 / 2)%R]))]> empty_heap)
           (mkOptimizer [R_group weight_decay] ∅).

(** The step size of the first update in that configuration. *)
Definition R_first_step_size : R :=
  (default_lr * R_sqrt.sqrt (1 - snd default_betas ^ 1) / (1 - fst default_betas ^ 1))%R.

(** A binary64 group over three parameters: 0 has a dense gradient, 1 a
    sparse one, 2 a dense one, and 3 none. *)
Definition float_group : Group float :=
  mkGroup [0; 1; 2; 3] default_lr default_betas default_eps
          default_weight_decay default_correct_bias.

Definition float_world : World float unit :=
  world_of (<[0 := mkParam [1%float] (Some (DenseGrad [0.5%float]))]>
            (<[1 := mkParam [2%float] (Some (SparseGrad [0] [0.5%float]))]>
             (<[2 := mkParam [3%float] (Some (DenseGrad [0.25%float]))]>
              (<[3 := mkParam [4%float] None]> empty_heap))))
           (mkOptimizer [float_group] ∅).

(** *** Observations used by the further properties *)

(** [state["step"]] of a parameter, 0 while it has no state. *)
Definition step_count {F E} (w : World F E) (p : nat) : nat :=
  from_option st_step 0 (state (self w) !! p).

(** The two worlds hold the same parameters and the same optimizer state
    (the groups and the environment may differ). *)
Definition same_params {F E} (w v : World F E) : Prop :=
  forall q, heap w q = heap v q /\ state (self w) !! q = state (self v) !! q.

(** The shapes of a parameter agree: a dense gradient and the moments
    have as many elements as the data. *)
Definition well_shaped {F E} (w : World F E) (p : nat) : Prop :=
  (forall g, p_grad (heap w p) = Some (DenseGrad g) ->
             length g = length (p_data (heap w p)))
  /\ (forall st, state (self w) !! p = Some st ->
                 length (st_exp_avg st) = length (p_data (heap w p))
                 /\ length (st_exp_avg_sq st) = length (p_data (heap w p))).

(** The four checks of [__init__], read on a group. *)
Definition passes_checks {F} `{Scalar F} (group : Group F) : bool :=
  negb (s_lt (g_lr group) s_zero)
  && (s_le s_zero (fst (g_betas group)) && s_lt (fst (g_betas group)) s_one)
  && (s_le s_zero (snd (g_betas group)) && s_lt (snd (g_betas group)) s_one)
  && s_le s_zero (g_eps group).

(** No parameter carries a sparse gradient. *)
Definition all_dense {F E} (w : World F E) : Prop :=
  forall q idx vals, p_grad (heap w q) <> Some (SparseGrad idx vals).

(** The moments of [p] are all zero (or not yet created) and its
    gradient, if any, is a dense tensor of zeros of its shape. *)
Definition at_rest {F E} `{Scalar F} (w : World F E) (p : nat) : Prop :=
  (forall st, state (self w) !! p = Some st ->
              st_exp_avg st = zeros_like (p_data (heap w p))
              /\ st_exp_avg_sq st = zeros_like (p_data (heap w p)))
  /\ (forall g, p_grad (heap w p) = Some g ->
                g = DenseGrad (zeros_like (p_data (heap w p)))).


Definition R_rest_world : World R unit :=
  world_of (<[0 := mkParam [1%R] (Some (DenseGrad [0%R]))]> empty_heap)
           (mkOptimizer [R_group 0] ∅).

(** What the update reads of a group, and the visits of a call: the
    hyperparameters and the parameter of every turn of the inner loop, in
    order. *)
Definition hyper {F} (g : Group F) : F * (F * F) * F * F * bool :=
  (g_lr g, g_betas g, g_eps g, g_weight_decay g, g_correct_bias g).

Definition visits {F} (gs : list (Group F)) : list (F * (F * F) * F * F * bool * nat) :=
  flat_map (fun g => map (pair (hyper g)) (g_params g)) gs.

(** The same zero gradient under weight decay 1/100. *)
Definition R_decay_world : World R unit :=
  world_of (<[0 := mkParam [1%R] (Some (DenseGrad [0%R]))]> empty_heap)
           (mkOptimizer [R_group (1 / 100)] ∅).

(** A binary64 world whose group lists a parameter without gradient (3)
    between two parameters with dense gradients (0 and 2). *)
Definition float_skip_world : World float unit :=
  world_of (<[0 := mkParam [1%float] (Some (DenseGrad [0.5%float]))]>
            (<[2 := mkParam [3%float] (Some (DenseGrad [0.25%float]))]>
             (<[3 := mkParam [4%float] None]> empty_heap)))
           (mkOptimizer [mkGroup [0; 3; 2] default_lr default_betas default_eps
                                 default_weight_decay default_correct_bias] ∅).

(** A binary64 world with two groups: the default one over parameter 0,
    and one over parameter 1 whose second beta was set to 1.5. *)
Definition float_late_group : Group float :=
  mkGroup [1] default_lr (fst default_betas, 1.5%float) default_eps
          default_weight_decay default_correct_bias.

Definition float_late_world : World float unit :=
  world_of (<[0 := mkParam [1%float] (Some (DenseGrad [0.5%float]))]>
            (<[1 := mkParam [2%float] (Some (DenseGrad [0.25%float]))]> empty_heap))
           (mkOptimizer [default_group default_lr; float_late_group] ∅).

(** A binary64 world with two dense parameters under the default
    configuration, listed in the given order. *)
Definition float_pair_world (ps : list nat) : World float unit :=
  world_of (<[0 := mkParam [1%float] (Some (DenseGrad [0.5%float]))]>
            (<[1 := mkParam [2%float] (Some (DenseGrad [0.25%float]))]> empty_heap))
           (mkOptimizer [mkGroup ps default_lr default_betas default_eps
                                 default_weight_decay default_correct_bias] ∅).

(** A binary64 world in which parameter 0 is listed twice. *)
Definition float_twice_world : World float unit :=
  world_of (<[0 := mkParam [1%float] (Some (DenseGrad [0.5%float]))]> empty_heap)
           (mkOptimizer [mkGroup [0; 0] default_lr default_betas default_eps
                                 default_weight_decay default_correct_bias] ∅).

(** ** Frame and sequencing lemmas *)

Section Facts.
Context {F : Type} `{Scalar F} {E : Type}.
Implicit Types (w : World F E) (group : Group F) (p q : nat).

Lemma update_param_no_grad group p w :
    p_grad (heap w p) = None -> update_param group p w = (w, inr tt).
  Proof. intros Hg. unfold update_param. rewrite Hg. reflexivity. Qed.

Lemma update_param_sparse group p w idx vals :
    p_grad (heap w p) = Some (SparseGrad idx vals) ->
    exists msg, update_param group p w = (w, inl (RuntimeError msg)).
  Proof. intros Hg. unfold update_param. rewrite Hg. eauto. Qed.

(** The loop body writes nothing but the data and the state of [p]. *)
Lemma update_param_frame group p w :
    let w' := fst (update_param group p w) in
    param_groups (self w') = param_groups (self w)
    /\ env w' = env w
    /\ (forall q, p_grad (heap w' q) = p_grad (heap w q))
    /\ (forall q, q <> p ->
          heap w' q = heap w q /\ state (self w') !! q = state (self w) !! q).
  Proof.
    unfold update_param.
    destruct (p_grad (heap w p)) as [[grad|idx vals]|] eqn:Hg; simpl;
      try (repeat split; reflexivity).
    destruct (step_size _ _) as [e|ss]; simpl.
    - split; [reflexivity|]. split; [reflexivity|]. split; [reflexivity|].
      intros q Hq. rewrite lookup_insert_ne by congruence. split; reflexivity.
    - split; [reflexivity|]. split; [reflexivity|]. split.
      + intros q. destruct (decide (q = p)) as [->|Hq].
        * rewrite fn_lookup_insert. reflexivity.
        * rewrite fn_lookup_insert_ne by congruence. reflexivity.
      + intros q Hq. rewrite fn_lookup_insert_ne by congruence.
        rewrite lookup_insert_ne by congruence. split; reflexivity.
  Qed.

Lemma run_app xs ys w :
    run (xs ++ ys) w = (run xs ;;; run ys) w.
  Proof.
    revert w. induction xs as [|x xs IH]; intros w; simpl.
    - reflexivity.
    - unfold bind in *. destruct (update_param (fst x) (snd x) w) as [w1 [e|[]]].
      + reflexivity.
      + apply IH.
  Qed.

Lemma step_group_run group ps w :
    step_group group ps w = run (map (pair group) ps) w.
  Proof.
    revert w. induction ps as [|p ps IH]; intros w; simpl; [reflexivity|].
    unfold bind. destruct (update_param group p w) as [w1 [e|[]]]; [reflexivity|].
    apply IH.
  Qed.

Lemma step_groups_run gs w :
    step_groups gs w = run (schedule gs) w.
  Proof.
    revert w. induction gs as [|g gs IH]; intros w; simpl; [reflexivity|].
    rewrite run_app. unfold bind. rewrite step_group_run.
    destruct (run (map (pair g) (g_params g)) w) as [w1 [e|[]]]; [reflexivity|].
    apply IH.
  Qed.

(** A pass over a schedule keeps every gradient, the groups and the
    environment, and leaves alone the parameters it does not visit. *)
Lemma run_frame xs w :
    let w' := fst (run xs w) in
    param_groups (self w') = param_groups (self w)
    /\ env w' = env w
    /\ (forall q, p_grad (heap w' q) = p_grad (heap w q))
    /\ (forall q, q ∉ xs.*2 ->
          heap w' q = heap w q /\ state (self w') !! q = state (self w) !! q).
  Proof.
    revert w. induction xs as [|x xs IH]; intros w; simpl.
    - repeat split; reflexivity.
    - pose proof (update_param_frame (fst x) (snd x) w) as (Hg & He & Hgr & Hfr).
      unfold bind. destruct (update_param (fst x) (snd x) w) as [w1 [e|[]]]; simpl in *.
      + split; [exact Hg|]. split; [exact He|]. split; [exact Hgr|].
        intros q Hq. apply Hfr. intros ->. apply Hq. left.
      + destruct (IH w1) as (Hg' & He' & Hgr' & Hfr').
        split; [congruence|]. split; [congruence|]. split.
        * intros q. rewrite Hgr'. apply Hgr.
        * intros q Hq.
          assert (q <> snd x) as Hne by (intros ->; apply Hq; left).
          assert (q ∉ xs.*2) as Hnin by (intros Hin; apply Hq; right; exact Hin).
          destruct (Hfr' q Hnin) as [-> ->]. apply Hfr. exact Hne.
  Qed.

(** A parameter without gradient is left alone even where it is visited. *)
Lemma run_no_grad xs w p :
    p_grad (heap w p) = None ->
    let w' := fst (run xs w) in
    heap w' p = heap w p /\ state (self w') !! p = state (self w) !! p.
  Proof.
    revert w. induction xs as [|x xs IH]; intros w Hp; simpl.
    - split; reflexivity.
    - destruct (decide (snd x = p)) as [Heq|Hne].
      + unfold bind. rewrite Heq. rewrite (update_param_no_grad _ _ _ Hp).
        apply IH. exact Hp.
      + pose proof (update_param_frame (fst x) (snd x) w) as (_ & _ & Hgr & Hfr).
        unfold bind.
        destruct (update_param (fst x) (snd x) w) as [w1 [e|[]]]; simpl in *.
        * apply Hfr. congruence.
        * destruct (IH w1) as [-> ->]; [rewrite Hgr; exact Hp|].
          apply Hfr. congruence.
  Qed.
End Facts.

(** ** The update of one parameter, element by element *)

Section Elements.
Context {F : Type} `{Scalar F}.
Implicit Types (group : Group F) (st : State F) (i : nat).

Lemma update_moments_step group grad st :
    st_step (update_moments group grad st) = S (st_step st).
  Proof. reflexivity. Qed.

Lemma update_moments_exp_avg group grad st i m g :
    st_exp_avg st !! i = Some m -> grad !! i = Some g ->
    st_exp_avg (update_moments group grad st) !! i =
    Some (s_add (s_mul (fst (g_betas group)) m)
                (s_mul (s_sub s_one (fst (g_betas group))) g)).
  Proof.
    intros Hm Hg. simpl. unfold t_add, t_scale.
    rewrite lookup_zip_with, !list_lookup_fmap, Hm, Hg. reflexivity.
  Qed.

Lemma update_moments_exp_avg_sq group grad st i v g :
    st_exp_avg_sq st !! i = Some v -> grad !! i = Some g ->
    st_exp_avg_sq (update_moments group grad st) !! i =
    Some (s_add (s_mul (snd (g_betas group)) v)
                (s_mul (s_sub s_one (snd (g_betas group))) (s_pow g 2))).
  Proof.
    intros Hv Hg. simpl. unfold t_add, t_scale, t_pow.
    rewrite lookup_zip_with, !list_lookup_fmap, Hv, Hg. reflexivity.
  Qed.

(** The moment-based update as the code computes it, with the negated
    step size handed to [addcdiv_]. *)
Lemma moment_update_lookup_raw group ss st data i x m v :
    data !! i = Some x -> st_exp_avg st !! i = Some m ->
    st_exp_avg_sq st !! i = Some v ->
    moment_update group ss st data !! i =
    Some (s_add x (s_mul (s_neg ss)
                         (s_div m (s_add (s_sqrt v) (g_eps group))))).
  Proof.
    intros Hx Hm Hv. unfold moment_update, addcdiv, t_add_scalar, t_sqrt.
    rewrite !lookup_zip_with, !list_lookup_fmap, Hx, Hm, Hv. reflexivity.
  Qed.

Lemma decay_off group data :
    s_eq (g_weight_decay group) s_zero = true -> decay group data = data.
  Proof. intros Hwd. unfold decay. rewrite Hwd. reflexivity. Qed.

Lemma decay_lookup_raw group data i y :
    s_eq (g_weight_decay group) s_zero = false ->
    data !! i = Some y ->
    decay group data !! i =
    Some (s_add y (s_mul (s_mul (s_neg (g_lr group)) (g_weight_decay group)) y)).
  Proof.
    intros Hwd Hy. unfold decay, add_alpha. rewrite Hwd. simpl.
    rewrite lookup_zip_with, Hy. reflexivity.
  Qed.

Lemma zeros_like_lookup (t : list F) i x :
    t !! i = Some x -> zeros_like t !! i = Some s_zero.
  Proof.
    intros Hx. unfold zeros_like. apply lookup_replicate_2.
    eapply lookup_lt_Some. exact Hx.
  Qed.

Section Exact.
Context `{!ScalarLaws F}.

Lemma moment_update_lookup group ss st data i x m v :
      data !! i = Some x -> st_exp_avg st !! i = Some m ->
      st_exp_avg_sq st !! i = Some v ->
      moment_update group ss st data !! i =
      Some (s_sub x (s_mul ss (s_div m (s_add (s_sqrt v) (g_eps group))))).
    Proof.
      intros Hx Hm Hv.
      rewrite (moment_update_lookup_raw _ _ _ _ _ _ _ _ Hx Hm Hv).
      rewrite s_mul_neg_l, s_add_neg. reflexivity.
    Qed.

Lemma decay_lookup group data i y :
      s_eq (g_weight_decay group) s_zero = false ->
      data !! i = Some y ->
      decay group data !! i =
      Some (s_sub y (s_mul (s_mul (g_lr group) (g_weight_decay group)) y)).
    Proof.
      intros Hwd Hy. rewrite (decay_lookup_raw _ _ _ _ Hwd Hy).
      rewrite !s_mul_neg_l, s_add_neg. reflexivity.
    Qed.

(** The moments after the first update of a parameter. *)
Lemma update_moments_fresh group grad (p : Param F) :
      length grad = length (p_data p) ->
      update_moments group grad (init_state p) =
      mkState 1 (t_scale (s_sub s_one (fst (g_betas group))) grad)
                (t_scale (s_sub s_one (snd (g_betas group))) (t_pow grad 2)).
    Proof.
      intros Hlen. unfold update_moments, init_state, zeros_like. simpl.
      rewrite <- Hlen. f_equal.
      - unfold t_add, t_scale. clear Hlen. induction grad as [|g grad IH]; simpl.
        + reflexivity.
        + rewrite s_mul_zero_r, s_add_zero_l. f_equal. exact IH.
      - unfold t_add, t_scale, t_pow. clear Hlen.
        induction grad as [|g grad IH]; simpl.
        + reflexivity.
        + rewrite s_mul_zero_r, s_add_zero_l. f_equal. exact IH.
    Qed.
End Exact.

Section OneParam.
Context {E : Type}.
Implicit Types (w : World F E) (p : nat).

(** What the loop body does for a dense gradient. *)
Lemma update_param_dense group p w grad :
      p_grad (heap w p) = Some (DenseGrad grad) ->
      let st := update_moments group grad (state_of w p) in
      update_param group p w =
      match step_size group (st_step st) with
      | inl e => (set_state p st w, inl e)
      | inr ss =>
        (set_data p (decay group (moment_update group ss st (p_data (heap w p))))
                  (set_state p st w), inr tt)
      end.
    Proof. intros Hg. unfold update_param. rewrite Hg. reflexivity. Qed.

Lemma set_state_lookup p st w :
      state (self (set_state p st w)) !! p = Some st.
    Proof. simpl. apply lookup_insert_eq. Qed.

Lemma set_data_lookup p d w :
      p_data (heap (set_data p d w) p) = d.
    Proof. simpl. rewrite fn_lookup_insert. reflexivity. Qed.

(** The loop body reads the world only at [p]. *)
Lemma update_param_local group p w (v : World F E) :
      heap w p = heap v p -> state (self w) !! p = state (self v) !! p ->
      snd (update_param group p w) = snd (update_param group p v)
      /\ heap (fst (update_param group p w)) p = heap (fst (update_param group p v)) p
      /\ state (self (fst (update_param group p w))) !! p =
         state (self (fst (update_param group p v))) !! p.
    Proof.
      intros Hh Hs. unfold update_param, state_of. rewrite Hh, Hs.
      destruct (p_grad (heap v p)) as [[grad|idx vals]|]; simpl; auto.
      destruct (step_size _ _) as [e|ss]; simpl.
      - rewrite !lookup_insert_eq. auto.
      - rewrite !fn_lookup_insert, !lookup_insert_eq, Hh. auto.
    Qed.
End OneParam.
End Elements.

(** ** Whole calls of [step] *)

Section Calls.
Context {F : Type} `{Scalar F} {E L : Type}.
Implicit Types (w : World F E) (closure : option (M F E L)) (p : nat).

(** [step] is the closure, then the pass over the schedule read from
    the world the closure left, then the closure's value. *)
Lemma step_unfold closure w :
    step closure w =
    match call_closure closure w with
    | (w0, inl e) => (w0, inl e)
    | (w0, inr loss) =>
      match run (schedule (param_groups (self w0))) w0 with
      | (w1, inl e) => (w1, inl e)
      | (w1, inr _) => (w1, inr loss)
      end
    end.
  Proof.
    unfold step, bind. destruct (call_closure closure w) as [w0 [e|loss]]; [reflexivity|].
    rewrite step_groups_run.
    destruct (run _ w0) as [w1 [e|[]]]; reflexivity.
  Qed.

(** A parameter that the schedule visits once, in a pass that runs to
    its end, is left as the loop body leaves it. *)
Lemma run_visits_once xs (g : Group F) p ys w w' :
    run (xs ++ (g, p) :: ys) w = (w', inr tt) ->
    p ∉ xs.*2 -> p ∉ ys.*2 ->
    snd (update_param g p w) = inr tt
    /\ heap w' p = heap (fst (update_param g p w)) p
    /\ state (self w') !! p = state (self (fst (update_param g p w))) !! p.
  Proof.
    intros Hrun Hxs Hys. rewrite run_app in Hrun. unfold bind in Hrun.
    pose proof (run_frame xs w) as (_ & _ & _ & Hfx).
    destruct (run xs w) as [w1 [e|[]]]; [discriminate|]. simpl in Hfx.
    destruct (Hfx p Hxs) as [Hh1 Hs1].
    destruct (update_param_local g p w1 w Hh1 Hs1) as (Hr & Hh & Hs).
    simpl in Hrun. unfold bind in Hrun.
    pose proof (run_frame ys (fst (update_param g p w1))) as (_ & _ & _ & Hfy).
    destruct (update_param g p w1) as [w2 [e|[]]]; [discriminate|].
    simpl in *. rewrite Hrun in Hfy. simpl in Hfy.
    destruct (Hfy p Hys) as [Hh2 Hs2].
    split; [congruence|]. split; congruence.
  Qed.

(** The same for a whole call of [step] that returns normally: [w] is
    the world the closure left. *)
Lemma step_visits_once closure (v w v' : World F E) loss r pre post
    (g : Group F) p :
  call_closure closure v = (w, inr loss) ->
  schedule (param_groups (self w)) = pre ++ (g, p) :: post ->
  p ∉ pre.*2 -> p ∉ post.*2 ->
  step closure v = (v', inr r) ->
  r = loss
  /\ snd (update_param g p w) = inr tt
  /\ heap v' p = heap (fst (update_param g p w)) p
  /\ state (self v') !! p = state (self (fst (update_param g p w))) !! p.
Proof.
  intros Hc Hsched Hpre Hpost Hstep.
  rewrite step_unfold, Hc, Hsched in Hstep.
  destruct (run (pre ++ (g, p) :: post) w) as [w1 [e|[]]] eqn:Hrun; [discriminate|].
  inversion Hstep; subst. split; [reflexivity|].
  exact (run_visits_once pre g p post w v' Hrun Hpre Hpost).
Qed.
End Calls.

(** ** Facts about the two carriers *)

(** With exact arithmetic and coefficients accepted by [__init__], the
    bias correction raises nothing. *)
Lemma step_size_R (group : Group R) (n : nat) :
  (0 <= fst (g_betas group) < 1)%R ->
  (0 <= snd (g_betas group) < 1)%R ->
  0 < n ->
  g_correct_bias group = true ->
  step_size group n =
  inr (g_lr group * R_sqrt.sqrt (1 - snd (g_betas group) ^ n)
       / (1 - fst (g_betas group) ^ n))%R.
Proof.
  intros Hb1 Hb2 Hn Hcb.
  pose proof (pow_lt_1_compat _ n Hb1 Hn) as Hp1.
  pose proof (pow_lt_1_compat _ n Hb2 Hn) as Hp2.
  unfold step_size, float_pow, math_sqrt, float_truediv. rewrite Hcb. simpl.
  destruct (Rlt_dec _ _) as [Hlt|_]; [lra|].
  destruct (Req_dec_T _ _) as [Heq|_]; [lra|].
  reflexivity.
Qed.

Lemma R_default_betas :
  (s_sub s_one (fst (default_betas (F := R))) = 1 / 10
   /\ s_sub s_one (snd (default_betas (F := R))) = 1 / 1000)%R.
Proof. simpl. split; lra. Qed.

(** ** The claims *)

Section DenseUpdate.
Context {F : Type} `{Scalar F} {E : Type}.
Implicit Types (w : World F E) (group : Group F) (p : nat).

(** A dense gradient always leaves the updated moments in the state,
    also when the bias correction raises afterwards. *)
Lemma update_param_state group p w grad :
    p_grad (heap w p) = Some (DenseGrad grad) ->
    state (self (fst (update_param group p w))) !! p =
    Some (update_moments group grad (state_of w p)).
  Proof.
    intros Hg. rewrite (update_param_dense _ _ _ _ Hg).
    destruct (step_size _ _); simpl; apply lookup_insert_eq.
  Qed.

Lemma update_param_dense_ok group p w grad ss :
    p_grad (heap w p) = Some (DenseGrad grad) ->
    step_size group (S (st_step (state_of w p))) = inr ss ->
    let st := update_moments group grad (state_of w p) in
    let d := moment_update group ss st (p_data (heap w p)) in
    let w' := set_data p (decay group d) (set_state p st w) in
    update_param group p w = (w', inr tt)
    /\ state (self w') !! p = Some st
    /\ p_data (heap w' p) = decay group d.
  Proof.
    intros Hg Hss st d w'. rewrite (update_param_dense _ _ _ _ Hg).
    simpl. rewrite Hss. split; [reflexivity|]. split.
    - apply lookup_insert_eq.
    - subst w'. apply set_data_lookup.
  Qed.
End DenseUpdate.

(** C1. For a parameter with a dense gradient the loop body of [step]
    succeeds whenever the step size [ss] is computed, stores the updated
    moments, and hands to the weight-decay stage the tensor [d] whose
    element [i] is [x - ss * (m / (sqrt v + eps))], where [x] is the old
    element and [m], [v] are the elements of the moments just stored:
    epsilon is added to the square root, not under it.  With
    [weight_decay == 0] the tensor [d] is the new parameter.  A call of
    [step] that returns normally and visits the parameter once leaves its
    data and state exactly so. *)
Theorem C1_param_update {F : Type} `{ScalarLaws F} {E : Type}
    (group : Group F) (p : nat) (w : World F E) (grad : list F) (ss : F) :
  p_grad (heap w p) = Some (DenseGrad grad) ->
  step_size group (S (st_step (state_of w p))) = inr ss ->
  exists w' st' d,
    update_param group p w = (w', inr tt)
    /\ st' = update_moments group grad (state_of w p)
    /\ state (self w') !! p = Some st'
    /\ p_data (heap w' p) = decay group d
    /\ (s_eq (g_weight_decay group) s_zero = true -> p_data (heap w' p) = d)
    /\ (forall i x m v,
          p_data (heap w p) !! i = Some x ->
          st_exp_avg st' !! i = Some m ->
          st_exp_avg_sq st' !! i = Some v ->
          d !! i = Some (s_sub x (s_mul ss (s_div m (s_add (s_sqrt v) (g_eps group))))))
    /\ (forall (L : Type) (closure : option (M F E L)) (v v' : World F E)
               (loss r : option L) (pre post : list (Group F * nat)),
          call_closure closure v = (w, inr loss) ->
          schedule (param_groups (self w)) = pre ++ (group, p) :: post ->
          p ∉ pre.*2 -> p ∉ post.*2 ->
          step closure v = (v', inr r) ->
          heap v' p = heap w' p /\ state (self v') !! p = Some st').
Proof.
  intros Hg Hss.
  destruct (update_param_dense_ok group p w grad ss Hg Hss) as (Hup & Hst & Hd).
  eexists _, _, _. split; [exact Hup|]. split; [reflexivity|].
  split; [exact Hst|]. split; [exact Hd|]. split; [|split].
  - intros Hwd. rewrite Hd. apply decay_off. exact Hwd.
  - intros i x m v Hx Hm Hv. apply moment_update_lookup; assumption.
  - intros L closure v v' loss r pre post Hc Hsched Hpre Hpost Hstep.
    destruct (step_visits_once closure v w v' loss r pre post group p
                Hc Hsched Hpre Hpost Hstep) as (_ & _ & Hh & Hs).
    rewrite Hup in Hh, Hs. simpl in Hh, Hs. split; [exact Hh|].
    rewrite Hs. apply lookup_insert_eq.
Qed.

(** C2. For a parameter with a dense gradient, let [st0] be the state
    stored under it, or the all-zero state with counter 0 if none is
    stored yet.  The loop body stores a state whose counter is
    [st_step st0 + 1] and whose moments are, element by element,
    [beta1 * m + (1 - beta1) * g] and [beta2 * v + (1 - beta2) * g^2] for
    the elements [m], [v] of [st0]; this holds whether or not the rest of
    the update succeeds, and a call of [step] that returns normally and
    visits the parameter once leaves exactly this state stored.  From the
    freshly created state, in exact arithmetic, the stored counter is 1
    and the moments are [(1 - beta1) * grad] and [(1 - beta2) * grad^2];
    at the default betas over the reals these are [0.1 * grad] and
    [0.001 * grad^2]. *)
Theorem C2_moments :
  (forall (F : Type) (SF : Scalar F) (E : Type) (group : Group F) (p : nat)
          (w : World F E) (grad : list F) (st0 : State F),
      p_grad (heap w p) = Some (DenseGrad grad) ->
      (state (self w) !! p = Some st0
       \/ (state (self w) !! p = None
           /\ st0 = mkState 0 (zeros_like (p_data (heap w p)))
                              (zeros_like (p_data (heap w p))))) ->
      exists st',
        state (self (fst (update_param group p w))) !! p = Some st'
        /\ st_step st' = S (st_step st0)
        /\ (forall i m g,
              st_exp_avg st0 !! i = Some m -> grad !! i = Some g ->
              st_exp_avg st' !! i =
              Some (s_add (s_mul (fst (g_betas group)) m)
                          (s_mul (s_sub s_one (fst (g_betas group))) g)))
        /\ (forall i v g,
              st_exp_avg_sq st0 !! i = Some v -> grad !! i = Some g ->
              st_exp_avg_sq st' !! i =
              Some (s_add (s_mul (snd (g_betas group)) v)
                          (s_mul (s_sub s_one (snd (g_betas group))) (s_pow g 2))))
        /\ (forall (L : Type) (closure : option (M F E L)) (v v' : World F E)
                   (loss r : option L) (pre post : list (Group F * nat)),
              call_closure closure v = (w, inr loss) ->
              schedule (param_groups (self w)) = pre ++ (group, p) :: post ->
              p ∉ pre.*2 -> p ∉ post.*2 ->
              step closure v = (v', inr r) ->
              state (self v') !! p = Some st'))
  /\ (forall (F : Type) (SF : Scalar F) (LF : ScalarLaws F) (E : Type)
             (group : Group F) (p : nat) (w : World F E) (grad : list F),
      p_grad (heap w p) = Some (DenseGrad grad) ->
      state (self w) !! p = None ->
      length grad = length (p_data (heap w p)) ->
      let st1 :=
        mkState 1
          (s_mul (s_sub s_one (fst (g_betas group))) <$> grad)
          ((fun g => s_mul (s_sub s_one (snd (g_betas group))) (s_pow g 2)) <$> grad) in
      state (self (fst (update_param group p w))) !! p = Some st1
      /\ (forall (L : Type) (closure : option (M F E L)) (v v' : World F E)
                 (loss r : option L) (pre post : list (Group F * nat)),
            call_closure closure v = (w, inr loss) ->
            schedule (param_groups (self w)) = pre ++ (group, p) :: post ->
            p ∉ pre.*2 -> p ∉ post.*2 ->
            step closure v = (v', inr r) ->
            state (self v') !! p = Some st1))
  /\ (forall (E : Type) (group : Group R) (p : nat) (w : World R E) (grad : list R),
      p_grad (heap w p) = Some (DenseGrad grad) ->
      state (self w) !! p = None ->
      length grad = length (p_data (heap w p)) ->
      g_betas group = default_betas ->
      let st1 := mkState 1 ((fun g => 1 / 10 * g)%R <$> grad)
                         ((fun g => 1 / 1000 * g ^ 2)%R <$> grad) in
      state (self (fst (update_param group p w))) !! p = Some st1
      /\ (forall (L : Type) (closure : option (M R E L)) (v v' : World R E)
                 (loss r : option L) (pre post : list (Group R * nat)),
            call_closure closure v = (w, inr loss) ->
            schedule (param_groups (self w)) = pre ++ (group, p) :: post ->
            p ∉ pre.*2 -> p ∉ post.*2 ->
            step closure v = (v', inr r) ->
            state (self v') !! p = Some st1)).
Proof.
  assert (Hlift : forall (F : Type) (SF : Scalar F) (E : Type) (group : Group F)
             (p : nat) (w : World F E) (st' : State F),
      state (self (fst (update_param group p w))) !! p = Some st' ->
      forall (L : Type) (closure : option (M F E L)) (v v' : World F E)
             (loss r : option L) (pre post : list (Group F * nat)),
        call_closure closure v = (w, inr loss) ->
        schedule (param_groups (self w)) = pre ++ (group, p) :: post ->
        p ∉ pre.*2 -> p ∉ post.*2 ->
        step closure v = (v', inr r) ->
        state (self v') !! p = Some st').
  { intros F SF E group p w st' Hst L closure v v' loss r pre post Hc Hs Hpre Hpost Hstep.
    destruct (step_visits_once closure v w v' loss r pre post group p
                Hc Hs Hpre Hpost Hstep) as (_ & _ & _ & Hsv).
    rewrite Hsv. exact Hst. }
  assert (Hfresh : forall (F : Type) (SF : Scalar F) (LF : ScalarLaws F) (E : Type)
             (group : Group F) (p : nat) (w : World F E) (grad : list F),
      p_grad (heap w p) = Some (DenseGrad grad) ->
      state (self w) !! p = None ->
      length grad = length (p_data (heap w p)) ->
      state (self (fst (update_param group p w))) !! p =
      Some (mkState 1
              (s_mul (s_sub s_one (fst (g_betas group))) <$> grad)
              ((fun g => s_mul (s_sub s_one (snd (g_betas group))) (s_pow g 2)) <$> grad))).
  { intros F SF LF E group p w grad Hg Hnone Hlen.
    rewrite (update_param_state _ _ _ _ Hg). f_equal.
    unfold state_of. rewrite Hnone. simpl.
    rewrite (update_moments_fresh _ _ _ Hlen). unfold t_scale, t_pow.
    rewrite <- list_fmap_compose. reflexivity. }
  split; [|split].
  - intros F SF E group p w grad st0 Hg Hst0.
    assert (state_of w p = st0) as Hso.
    { unfold state_of. destruct Hst0 as [->|[-> ->]]; reflexivity. }
    pose proof (update_param_state group p w grad Hg) as Hst. rewrite Hso in Hst.
    eexists. split; [exact Hst|]. split; [reflexivity|]. split; [|split].
    + intros i m g Hm Hgi. apply update_moments_exp_avg; assumption.
    + intros i v g Hv Hgi. apply update_moments_exp_avg_sq; assumption.
    + apply Hlift. exact Hst.
  - intros F SF LF E group p w grad Hg Hnone Hlen st1.
    pose proof (Hfresh F SF LF E group p w grad Hg Hnone Hlen) as Hst.
    split; [exact Hst|]. apply Hlift. exact Hst.
  - intros E group p w grad Hg Hnone Hlen Hb st1.
    assert (state (self (fst (update_param group p w))) !! p = Some st1) as Hst.
    { rewrite (Hfresh R _ _ E group p w grad Hg Hnone Hlen). rewrite Hb.
      destruct R_default_betas as [-> ->]. reflexivity. }
    split; [exact Hst|]. apply Hlift. exact Hst.
Qed.

(** C3. Without bias correction the step size is the learning rate, for
    every value of the counter.  With bias correction, when none of the
    Python operations involved raises, it is
    [lr * sqrt (1 - beta2^n) / (1 - beta1^n)]; the loop body evaluates it
    at the counter already incremented by this update; and over the reals,
    for betas in [0, 1) and a counter of at least 1, nothing raises. *)
Theorem C3_step_size :
  (forall (F : Type) (SF : Scalar F) (group : Group F) (n : nat),
      g_correct_bias group = false -> step_size group n = inr (g_lr group))
  /\ (forall (F : Type) (SF : Scalar F) (group : Group F) (n : nat),
      g_correct_bias group = true ->
      negb (s_isinf (fst (g_betas group)))
        && s_isinf (s_pow (fst (g_betas group)) n) = false ->
      negb (s_isinf (snd (g_betas group)))
        && s_isinf (s_pow (snd (g_betas group)) n) = false ->
      s_lt (s_sub s_one (s_pow (snd (g_betas group)) n)) s_zero = false ->
      s_eq (s_sub s_one (s_pow (fst (g_betas group)) n)) s_zero = false ->
      step_size group n =
      inr (s_div (s_mul (g_lr group)
                        (s_sqrt (s_sub s_one (s_pow (snd (g_betas group)) n))))
                 (s_sub s_one (s_pow (fst (g_betas group)) n))))
  /\ (forall (F : Type) (SF : Scalar F) (E : Type) (group : Group F) (p : nat)
             (w : World F E) (grad : list F),
      p_grad (heap w p) = Some (DenseGrad grad) ->
      let st := update_moments group grad (state_of w p) in
      st_step st = S (st_step (state_of w p))
      /\ update_param group p w =
         match step_size group (S (st_step (state_of w p))) with
         | inl e => (set_state p st w, inl e)
         | inr ss =>
           (set_data p (decay group (moment_update group ss st (p_data (heap w p))))
                     (set_state p st w), inr tt)
         end)
  /\ (forall (group : Group R) (n : nat),
      g_correct_bias group = true ->
      s_le s_zero (fst (g_betas group)) && s_lt (fst (g_betas group)) s_one = true ->
      s_le s_zero (snd (g_betas group)) && s_lt (snd (g_betas group)) s_one = true ->
      0 < n ->
      step_size group n =
      inr (g_lr group * R_sqrt.sqrt (1 - snd (g_betas group) ^ n)
           / (1 - fst (g_betas group) ^ n))%R).
Proof.
  split; [|split; [|split]].
  - intros F SF group n Hcb. unfold step_size. rewrite Hcb. reflexivity.
  - intros F SF group n Hcb Ho1 Ho2 Hsq Hdiv.
    unfold step_size, float_pow, math_sqrt, float_truediv.
    rewrite Hcb, Ho1, Ho2, Hsq, Hdiv. reflexivity.
  - intros F SF E group p w grad Hg st. split; [reflexivity|].
    apply update_param_dense. exact Hg.
  - intros group n Hcb Hb1 Hb2 Hn. simpl in Hb1, Hb2.
    destruct (Rle_dec 0 (fst (g_betas group))); [|discriminate].
    destruct (Rlt_dec (fst (g_betas group)) 1); [|discriminate].
    destruct (Rle_dec 0 (snd (g_betas group))); [|discriminate].
    destruct (Rlt_dec (snd (g_betas group)) 1); [|discriminate].
    apply step_size_R; try assumption; split; assumption.
Qed.

(** C4. For a parameter with a dense gradient whose step size [ss] is
    computed, the loop body first forms the moment-updated tensor [d]
    (element [x - ss * (m / (sqrt v + eps))]) and then, when
    [weight_decay != 0], stores [y - lr * weight_decay * y] for every
    element [y] of [d], with the learning rate of the group and not [ss];
    when [weight_decay == 0] it stores [d] itself. *)
Theorem C4_weight_decay {F : Type} `{ScalarLaws F} {E : Type}
    (group : Group F) (p : nat) (w : World F E) (grad : list F) (ss : F) :
  p_grad (heap w p) = Some (DenseGrad grad) ->
  step_size group (S (st_step (state_of w p))) = inr ss ->
  exists w' d,
    update_param group p w = (w', inr tt)
    /\ d = moment_update group ss (update_moments group grad (state_of w p))
                         (p_data (heap w p))
    /\ (forall i x m v,
          p_data (heap w p) !! i = Some x ->
          st_exp_avg (update_moments group grad (state_of w p)) !! i = Some m ->
          st_exp_avg_sq (update_moments group grad (state_of w p)) !! i = Some v ->
          d !! i = Some (s_sub x (s_mul ss (s_div m (s_add (s_sqrt v) (g_eps group))))))
    /\ (s_eq (g_weight_decay group) s_zero = false ->
        length (p_data (heap w' p)) = length d
        /\ forall i y, d !! i = Some y ->
             p_data (heap w' p) !! i =
             Some (s_sub y (s_mul (s_mul (g_lr group) (g_weight_decay group)) y)))
    /\ (s_eq (g_weight_decay group) s_zero = true -> p_data (heap w' p) = d).
Proof.
  intros Hg Hss.
  destruct (update_param_dense_ok group p w grad ss Hg Hss) as (Hup & Hst & Hd).
  eexists _, _. split; [exact Hup|]. split; [reflexivity|]. split; [|split].
  - intros i x m v Hx Hm Hv. apply moment_update_lookup; assumption.
  - intros Hwd. rewrite Hd. split.
    + unfold decay, add_alpha. rewrite Hwd. simpl.
      rewrite length_zip_with. lia.
    + intros i y Hy. apply decay_lookup; assumption.
  - intros Hwd. rewrite Hd. apply decay_off. exact Hwd.
Qed.

(** A pass that runs to its end has met no sparse gradient. *)
Lemma run_ok_not_sparse {F : Type} `{Scalar F} {E : Type}
    (xs : list (Group F * nat)) (w w' : World F E) (p : nat) idx vals :
  run xs w = (w', inr tt) -> p ∈ xs.*2 ->
  p_grad (heap w p) <> Some (SparseGrad idx vals).
Proof.
  revert w. induction xs as [|x xs IH]; intros w Hrun Hin; simpl in *.
  - inversion Hin.
  - unfold bind in Hrun.
    pose proof (update_param_frame (fst x) (snd x) w) as (_ & _ & Hgr & _).
    apply elem_of_cons in Hin as [->|Hin].
    + intros Hsp. destruct (update_param_sparse (fst x) (snd x) w idx vals Hsp) as [msg Hup].
      rewrite Hup in Hrun. discriminate.
    + destruct (update_param (fst x) (snd x) w) as [w1 [e|[]]]; [discriminate|].
      simpl in Hgr. rewrite <- Hgr. apply (IH w1); assumption.
Qed.

(** C5. When the pass reaches a parameter whose gradient is sparse,
    [step] raises the [RuntimeError] and returns the world as it was when
    the parameters before it in the iteration order had been processed:
    they keep their updates, and the offending parameter and every
    parameter not visited before it keep their data and their state. *)
Theorem C5_sparse_gradient {F : Type} `{Scalar F} {E L : Type}
    (closure : option (M F E L)) (w w0 w1 : World F E) (loss : option L)
    (pre post : list (Group F * nat)) (g : Group F) (p : nat)
    (idx : list nat) (vals : list F) :
  call_closure closure w = (w0, inr loss) ->
  schedule (param_groups (self w0)) = pre ++ (g, p) :: post ->
  run pre w0 = (w1, inr tt) ->
  p_grad (heap w0 p) = Some (SparseGrad idx vals) ->
  step closure w =
    (w1, inl (RuntimeError
       "Adam does not support sparse gradients, please consider SparseAdam instead"))
  /\ heap w1 p = heap w0 p
  /\ state (self w1) !! p = state (self w0) !! p
  /\ forall q, q ∉ pre.*2 ->
       heap w1 q = heap w0 q /\ state (self w1) !! q = state (self w0) !! q.
Proof.
  intros Hc Hsched Hpre Hsp.
  pose proof (run_frame pre w0) as (_ & _ & Hgr & Hfr). rewrite Hpre in Hgr, Hfr.
  simpl in Hgr, Hfr.
  assert (p ∉ pre.*2) as Hp.
  { intros Hin. exact (run_ok_not_sparse pre w0 w1 p idx vals Hpre Hin Hsp). }
  split; [|split; [apply Hfr, Hp|split; [apply Hfr, Hp|exact Hfr]]].
  rewrite step_unfold, Hc, Hsched, run_app. unfold bind. rewrite Hpre. simpl.
  unfold bind, update_param. rewrite Hgr, Hsp. reflexivity.
Qed.

(** C7. A parameter that has no gradient when the pass of a [step] call
    starts keeps its data and its state entry (none, if it had none, and
    the same counter otherwise) through that call, however the call ends;
    and so through any number of successive calls. *)
Theorem C7_no_gradient {F : Type} `{Scalar F} {E L : Type}
    (closure : option (M F E L)) (w : World F E) (p : nat) :
  (p_grad (heap (fst (call_closure closure w)) p) = None ->
   heap (fst (step closure w)) p = heap (fst (call_closure closure w)) p
   /\ state (self (fst (step closure w))) !! p =
      state (self (fst (call_closure closure w))) !! p)
  /\ (p_grad (heap w p) = None ->
      forall n, p_grad (heap (steps n w) p) = None
                /\ heap (steps n w) p = heap w p
                /\ state (self (steps n w)) !! p = state (self w) !! p).
Proof.
  split.
  - intros Hg. rewrite step_unfold.
    destruct (call_closure closure w) as [w0 [e|loss]]; simpl in *; [split; reflexivity|].
    pose proof (run_no_grad (schedule (param_groups (self w0))) w0 p Hg) as Hrun.
    destruct (run _ w0) as [w1 [e|[]]]; simpl in *; exact Hrun.
  - intros Hg n. revert w Hg. induction n as [|n IH]; intros w Hg; simpl.
    + repeat split; auto.
    + assert (heap (fst (step (L := unit) None w)) p = heap w p
              /\ state (self (fst (step (L := unit) None w))) !! p = state (self w) !! p)
        as [Hh Hs].
      { rewrite step_unfold. simpl.
        pose proof (run_no_grad (schedule (param_groups (self w))) w p Hg) as Hrun.
        destruct (run _ w) as [w1 [e|[]]]; simpl in *; exact Hrun. }
      destruct (IH (fst (step (L := unit) None w))) as (Hg' & Hh' & Hs').
      { rewrite Hh. exact Hg. }
      split; [exact Hg'|]. split; congruence.
Qed.

(** C8. With a closure [c], [step] is: run [c] once on the world it was
    called in; if [c] raises, so does [step]; otherwise make the pass over
    the groups from the world [c] left and return the value of [c].
    Without a closure it is the pass alone, returning [None].  The pass
    does not touch the rest of the program, so a closure that counts its
    calls has counted exactly one after [step]. *)
Theorem C8_closure {F : Type} `{Scalar F} {E L : Type} (w : World F E) :
  (forall c : M F E L,
      step (Some c) w =
      match c w with
      | (w0, inl e) => (w0, inl e)
      | (w0, inr l) =>
        match step_groups (param_groups (self w0)) w0 with
        | (w1, inl e) => (w1, inl e)
        | (w1, inr _) => (w1, inr (Some l))
        end
      end)
  /\ step (L := L) None w =
     match step_groups (param_groups (self w)) w with
     | (w1, inl e) => (w1, inl e)
     | (w1, inr _) => (w1, inr None)
     end
  /\ (forall c : M F E L, env (fst (step (Some c) w)) = env (fst (c w)))
  /\ env (fst (step (L := L) None w)) = env w
  /\ (forall (l : L) (v : World F nat),
        env (fst (step (Some (counting_closure l)) v)) = S (env v)).
Proof.
  assert (Henv : forall (E' L' : Type) (c : M F E' L') (v : World F E'),
             env (fst (step (Some c) v)) = env (fst (c v))).
  { intros E' L' c v. rewrite step_unfold. simpl. unfold bind, ret.
    destruct (c v) as [w0 [e|l]]; simpl; [reflexivity|].
    pose proof (run_frame (schedule (param_groups (self w0))) w0) as (_ & He & _).
    destruct (run _ w0) as [w1 [e|[]]]; simpl in *; exact He. }
  split; [|split; [|split; [|split]]].
  - intros c. unfold step, call_closure, bind, ret.
    destruct (c w) as [w0 [e|l]]; [reflexivity|].
    destruct (step_groups _ w0) as [w1 [e|[]]]; reflexivity.
  - unfold step, call_closure, bind, ret.
    destruct (step_groups _ w) as [w1 [e|[]]]; reflexivity.
  - intros c. apply Henv.
  - rewrite step_unfold. simpl.
    pose proof (run_frame (schedule (param_groups (self w))) w) as (_ & He & _).
    destruct (run _ w) as [w1 [e|[]]]; simpl in *; exact He.
  - intros l v. rewrite Henv. reflexivity.
Qed.

(** C6 (as the code has it). [__init__] raises one of its own
    [ValueError]s, whatever the base constructor would do and so before
    any state exists, exactly when [lr < 0], or not [0 <= beta1 < 1], or
    not [0 <= beta2 < 1], or not [0 <= eps]; the error is that of the
    first check that fails, in this order (the two beta checks share one
    message and carry the offending beta).  When the four checks pass the
    given values go to the base constructor unchanged, which for a
    non-empty parameter list returns one group and an empty state. *)
Theorem C6_validation {F : Type} `{Scalar F}
    (params : list nat) (lr : F) (betas : F * F) (eps weight_decay : F)
    (correct_bias : bool) :
  let bad_lr := s_lt lr s_zero in
  let bad_beta1 := negb (s_le s_zero (fst betas) && s_lt (fst betas) s_one) in
  let bad_beta2 := negb (s_le s_zero (snd betas) && s_lt (snd betas) s_one) in
  let bad_eps := negb (s_le s_zero eps) in
  let init := fun super_init =>
    AdamW_init super_init params lr betas eps weight_decay correct_bias in
  ((exists e, forall super_init, init super_init = inl e)
   <-> bad_lr || bad_beta1 || bad_beta2 || bad_eps = true)
  /\ (bad_lr = true ->
      forall super_init, init super_init = inl (ValueError msg_lr [lr]))
  /\ (bad_lr = false -> bad_beta1 = true ->
      forall super_init, init super_init = inl (ValueError msg_beta [fst betas]))
  /\ (bad_lr = false -> bad_beta1 = false -> bad_beta2 = true ->
      forall super_init, init super_init = inl (ValueError msg_beta [snd betas]))
  /\ (bad_lr = false -> bad_beta1 = false -> bad_beta2 = false -> bad_eps = true ->
      forall super_init, init super_init = inl (ValueError msg_eps [eps]))
  /\ (bad_lr || bad_beta1 || bad_beta2 || bad_eps = false ->
      (forall super_init,
          init super_init =
          super_init params (mkDefaults lr betas eps weight_decay correct_bias))
      /\ (params <> [] ->
          init Optimizer_init =
          inr (mkOptimizer
                 [mkGroup params lr betas eps weight_decay correct_bias] ∅))).
Proof.
  intros bad_lr bad_beta1 bad_beta2 bad_eps init.
  assert (Hl : bad_lr = true ->
               forall s, init s = inl (ValueError msg_lr [lr])).
  { intros Hb s. subst init bad_lr. unfold AdamW_init. rewrite Hb. reflexivity. }
  assert (H1 : bad_lr = false -> bad_beta1 = true ->
               forall s, init s = inl (ValueError msg_beta [fst betas])).
  { intros Ha Hb s. subst init bad_lr bad_beta1. unfold AdamW_init.
    rewrite Ha, Hb. reflexivity. }
  assert (H2 : bad_lr = false -> bad_beta1 = false -> bad_beta2 = true ->
               forall s, init s = inl (ValueError msg_beta [snd betas])).
  { intros Ha Hb Hc s. subst init bad_lr bad_beta1 bad_beta2. unfold AdamW_init.
    rewrite Ha, Hb, Hc. reflexivity. }
  assert (He : bad_lr = false -> bad_beta1 = false -> bad_beta2 = false ->
               bad_eps = true ->
               forall s, init s = inl (ValueError msg_eps [eps])).
  { intros Ha Hb Hc Hd s. subst init bad_lr bad_beta1 bad_beta2 bad_eps.
    unfold AdamW_init. rewrite Ha, Hb, Hc, Hd. reflexivity. }
  assert (Hok : bad_lr || bad_beta1 || bad_beta2 || bad_eps = false ->
                forall s, init s =
                          s params (mkDefaults lr betas eps weight_decay correct_bias)).
  { intros Hb s. apply orb_false_elim in Hb as [Hb Hd].
    apply orb_false_elim in Hb as [Hb Hc]. apply orb_false_elim in Hb as [Ha Hb].
    subst init bad_lr bad_beta1 bad_beta2 bad_eps. unfold AdamW_init.
    rewrite Ha, Hb, Hc, Hd. reflexivity. }
  split; [|split; [exact Hl|split; [exact H1|split; [exact H2|split; [exact He|]]]]].
  - split.
    + intros [e He']. destruct (bad_lr || bad_beta1 || bad_beta2 || bad_eps) eqn:Hb;
        [reflexivity|].
      specialize (He' (fun _ _ => inr (mkOptimizer [] ∅))).
      rewrite (Hok eq_refl) in He'. discriminate.
    + intros Hb. destruct bad_lr eqn:Ha; [eexists; apply Hl; reflexivity|].
      destruct bad_beta1 eqn:Hb1; [eexists; apply H1; reflexivity|].
      destruct bad_beta2 eqn:Hb2; [eexists; apply H2; reflexivity|].
      destruct bad_eps eqn:Hb3; [eexists; apply He; reflexivity|].
      discriminate.
  - intros Hb. split; [exact (Hok Hb)|].
    intros Hne. rewrite (Hok Hb). destruct params; [congruence|reflexivity].
Qed.

(** C6 as stated fails on binary64: with the default learning rate and
    betas and a NaN epsilon construction raises, although the learning
    rate is not negative, both betas are in [0, 1), and [eps < 0] is
    false. *)
Lemma C6_nan_epsilon :
  ~ (forall (lr : float) (betas : float * float) (eps : float),
        (exists e, AdamW_init Optimizer_init [0] lr betas eps
                              default_weight_decay default_correct_bias = inl e)
        <-> (s_lt lr s_zero = true
             \/ s_le s_zero (fst betas) && s_lt (fst betas) s_one = false
             \/ s_le s_zero (snd betas) && s_lt (snd betas) s_one = false
             \/ s_lt eps s_zero = true)).
Proof.
  intros Hclaim.
  destruct (Hclaim default_lr default_betas nan) as [Hraises _].
  assert (exists e, AdamW_init Optimizer_init [0] default_lr default_betas nan
                               default_weight_decay default_correct_bias = inl e)
    as Hex.
  { exists (ValueError msg_eps [nan]). vm_compute. reflexivity. }
  destruct (Hraises Hex) as [Hc|[Hc|[Hc|Hc]]]; vm_compute in Hc; discriminate.
Qed.

(** C10. The checks of [__init__] do not look at [weight_decay] or
    [correct_bias]: when the four checks pass, every value of the two is
    handed to the base constructor unchanged, and lands in the group for a
    non-empty parameter list.  The update multiplies by the group's value
    as it stands: the parameter becomes [y + (-lr * weight_decay) * y]
    whenever [weight_decay != 0], and over the reals a negative value with
    a positive learning rate makes a positive element larger. *)
Theorem C10_weight_decay_unchecked :
  (forall (F : Type) (SF : Scalar F) (params : list nat) (lr : F)
          (betas : F * F) (eps : F),
      s_lt lr s_zero = false ->
      s_le s_zero (fst betas) && s_lt (fst betas) s_one = true ->
      s_le s_zero (snd betas) && s_lt (snd betas) s_one = true ->
      s_le s_zero eps = true ->
      forall (weight_decay : F) (correct_bias : bool),
        (forall super_init,
            AdamW_init super_init params lr betas eps weight_decay correct_bias =
            super_init params (mkDefaults lr betas eps weight_decay correct_bias))
        /\ (params <> [] ->
            AdamW_init Optimizer_init params lr betas eps weight_decay correct_bias =
            inr (mkOptimizer
                   [mkGroup params lr betas eps weight_decay correct_bias] ∅)))
  /\ (forall (F : Type) (SF : Scalar F) (E : Type) (group : Group F) (p : nat)
             (w : World F E) (grad : list F) (ss : F),
      p_grad (heap w p) = Some (DenseGrad grad) ->
      step_size group (S (st_step (state_of w p))) = inr ss ->
      s_eq (g_weight_decay group) s_zero = false ->
      let d := moment_update group ss (update_moments group grad (state_of w p))
                             (p_data (heap w p)) in
      snd (update_param group p w) = inr tt
      /\ forall i y, d !! i = Some y ->
           p_data (heap (fst (update_param group p w)) p) !! i =
           Some (s_add y (s_mul (s_mul (s_neg (g_lr group)) (g_weight_decay group)) y)))
  /\ (forall lr weight_decay y : R,
      (0 < lr)%R -> (weight_decay < 0)%R -> (0 < y)%R ->
      (y < s_add y (s_mul (s_mul (s_neg lr) weight_decay) y))%R).
Proof.
  split; [|split].
  - intros F SF params lr betas eps Ha Hb Hc Hd weight_decay correct_bias.
    assert (forall s, AdamW_init s params lr betas eps weight_decay correct_bias =
                      s params (mkDefaults lr betas eps weight_decay correct_bias))
      as Hok.
    { intros s. unfold AdamW_init. rewrite Ha, Hb, Hc, Hd. reflexivity. }
    split; [exact Hok|]. intros Hne. rewrite Hok.
    destruct params; [congruence|reflexivity].
  - intros F SF E group p w grad ss Hg Hss Hwd d.
    destruct (update_param_dense_ok group p w grad ss Hg Hss) as (Hup & _ & Hd).
    rewrite Hup. simpl. split; [reflexivity|].
    intros i y Hy. simpl in Hd. rewrite fn_lookup_insert. simpl.
    apply decay_lookup_raw; assumption.
  - intros lr weight_decay y Hlr Hwd Hy. simpl.
    assert (0 < - lr * weight_decay)%R as Hpos by nra.
    assert (0 < - lr * weight_decay * y)%R as Hprod
      by (apply Rmult_lt_0_compat; assumption).
    lra.
Qed.

(** Two binary64 values that the IEEE comparison tells apart are
    different. *)
Lemma float_neq (a b : float) :
  PrimFloat.eqb a a = true -> PrimFloat.eqb a b = false -> a <> b.
Proof. intros Haa Hab Heq. rewrite <- Heq in Hab. congruence. Qed.

Ltac float_differ :=
  match goal with
  | |- ?l <> ?r =>
    let l' := eval vm_compute in l in
    let r' := eval vm_compute in r in
    change (l' <> r');
    let Heq := fresh in
    intros Heq; inversion Heq as [Hf]; revert Hf;
    apply float_neq; vm_compute; reflexivity
  end.

Lemma step_one_param {F : Type} `{Scalar F} {E : Type}
    (w : World F E) (group : Group F) (x g ss : F) :
  param_groups (self w) = [group] -> g_params group = [0] ->
  heap w 0 = mkParam [x] (Some (DenseGrad [g])) ->
  step_size group (S (st_step (state_of w 0))) = inr ss ->
  s_eq (g_weight_decay group) s_zero = true ->
  let st' := update_moments group [g] (state_of w 0) in
  let w' := fst (step (L := unit) None w) in
  param_groups (self w') = [group]
  /\ state (self w') !! 0 = Some st'
  /\ heap w' 0 = mkParam (moment_update group ss st' [x]) (Some (DenseGrad [g])).
Proof.
  intros Hgs Hps Hh Hss Hwd st' w'.
  assert (Hg : p_grad (heap w 0) = Some (DenseGrad [g])) by (rewrite Hh; reflexivity).
  destruct (update_param_dense_ok group 0 w [g] ss Hg Hss) as (Hup & Hst & Hd).
  subst w'. rewrite step_unfold. simpl. rewrite Hgs. simpl. rewrite Hps. simpl.
  unfold bind. rewrite Hup. simpl. split; [exact Hgs|]. split.
  - apply lookup_insert_eq.
  - rewrite fn_lookup_insert. rewrite Hh. simpl. rewrite decay_off by exact Hwd.
    reflexivity.
Qed.

Lemma R_eq_zero_true : s_eq (F := R) s_zero s_zero = true.
Proof. simpl. destruct (Req_dec_T 0 0) as [_|Hne]; [reflexivity|]. contradict Hne. reflexivity. Qed.


Lemma R_default_betas_eq : default_betas (F := R) = (9 / 10, 999 / 1000)%R.
Proof. unfold default_betas. simpl. f_equal; lra. Qed.

Lemma R_default_step_size lr n : 0 < n -> step_size (default_group lr) n = inr (R_ss lr n).
Proof.
  intros Hn. rewrite (step_size_R (default_group lr) n).
  - unfold default_group. cbn [g_betas g_lr fst snd]. rewrite R_default_betas_eq. reflexivity.
  - simpl. lra.
  - simpl. lra.
  - exact Hn.
  - reflexivity.
Qed.

Lemma R_two_steps (lr x g : R) :
  let eps := (1 / 1000000)%R in
  let m1 := (1 / 10 * g)%R in
  let v1 := (1 / 1000 * g ^ 2)%R in
  let x1 := (x - R_ss lr 1 * (m1 / (R_sqrt.sqrt v1 + eps)))%R in
  let m2 := (9 / 10 * m1 + 1 / 10 * g)%R in
  let v2 := (999 / 1000 * v1 + 1 / 1000 * g ^ 2)%R in
  let x2 := (x1 - R_ss lr 2 * (m2 / (R_sqrt.sqrt v2 + eps)))%R in
  p_data (heap (steps 1 (one_param_world lr x g)) 0) = [x1]
  /\ p_data (heap (steps 2 (one_param_world lr x g)) 0) = [x2].
Proof.
  intros eps m1 v1 x1 m2 v2 x2.
  pose (w0 := one_param_world lr x g).
  destruct (step_one_param w0 (default_group lr) x g (R_ss lr 1)) as (Hg1 & Hs1 & Hh1);
    try reflexivity.
  { apply R_default_step_size. lia. }
  { apply R_eq_zero_true. }
  set (w1 := fst (step (L := unit) None w0)) in *.
  assert (Hst1 : update_moments (default_group lr) [g] (state_of w0 0) = mkState 1 [m1] [v1]).
  { unfold update_moments, state_of. simpl. rewrite lookup_empty, fn_lookup_insert. simpl.
    f_equal; f_equal; subst m1 v1; simpl; field. }
  rewrite Hst1 in Hs1, Hh1.
  assert (Hx1 : moment_update (default_group lr) (R_ss lr 1) (mkState 1 [m1] [v1]) [x] = [x1]).
  { unfold moment_update, addcdiv, t_add_scalar, t_sqrt. simpl. f_equal. subst x1 eps.
    replace (1 / (10 * (10 * (10 * (10 * (10 * (10 * 1)))))))%R with (1 / 1000000)%R by lra.
    ring. }
  rewrite Hx1 in Hh1.
  destruct (step_one_param w1 (default_group lr) x1 g (R_ss lr 2)) as (Hg2 & Hs2 & Hh2);
    try assumption; try reflexivity.
  { unfold state_of. rewrite Hs1. simpl. apply R_default_step_size. lia. }
  { apply R_eq_zero_true. }
  assert (Hst2 : update_moments (default_group lr) [g] (state_of w1 0) = mkState 2 [m2] [v2]).
  { unfold update_moments, state_of. rewrite Hs1. simpl. f_equal; f_equal; subst m2 v2 m1 v1; simpl; field. }
  rewrite Hst2 in Hh2.
  assert (Hx2 : moment_update (default_group lr) (R_ss lr 2) (mkState 2 [m2] [v2]) [x1] = [x2]).
  { unfold moment_update, addcdiv, t_add_scalar, t_sqrt. simpl. f_equal. subst x2 eps.
    replace (1 / (10 * (10 * (10 * (10 * (10 * (10 * 1)))))))%R with (1 / 1000000)%R by lra.
    ring. }
  rewrite Hx2 in Hh2.
  split.
  - change (steps 1 (one_param_world lr x g)) with w1. rewrite Hh1. reflexivity.
  - change (steps 2 (one_param_world lr x g)) with (fst (step (L:=unit) None w1)).
    rewrite Hh2. reflexivity.
Qed.

Lemma half_lt_frac (s e : R) : (0 < e < s)%R -> (1 / 2 < s / (s + e))%R.
Proof.
  intros He. apply (Rmult_lt_reg_r (s + e)); [lra|].
  replace (s / (s + e) * (s + e))%R with s by (field; lra). lra.
Qed.

Lemma frac_lt_one (s e : R) : (0 < e)%R -> (0 < s)%R -> (s / (s + e) < 1)%R.
Proof.
  intros He Hs. apply (Rmult_lt_reg_r (s + e)); [lra|].
  replace (s / (s + e) * (s + e))%R with s by (field; lra). lra.
Qed.

Lemma frac_inj (s t e : R) :
  (0 < e)%R -> (0 < s)%R -> (0 < t)%R -> (s / (s + e) = t / (t + e))%R -> s = t.
Proof.
  intros He Hs Ht Heq.
  assert (s * (t + e) = t * (s + e))%R as Hx.
  { replace (s * (t + e))%R with (s / (s + e) * ((s + e) * (t + e)))%R by (field; lra).
    rewrite Heq. field. lra. }
  assert (e * s = e * t)%R as Hy by lra.
  apply (Rmult_eq_reg_l e); [exact Hy|lra].
Qed.

Lemma R_two_steps_differ (lr : R) :
  (0 < lr)%R ->
  let twice := p_data (heap (steps 2 (one_param_world lr 1%R 1%R)) 0) in
  twice <> p_data (heap (steps 1 (one_param_world (2 * lr)%R 1%R 1%R)) 0)
  /\ twice <> p_data (heap (steps 1 (one_param_world lr 1%R (2 * 1)%R)) 0)
  /\ R_ss lr 1 <> R_ss lr 2.
Proof.
  intros Hlr twice. subst twice.
  destruct (R_two_steps lr 1 1) as [_ ->].
  destruct (R_two_steps (2 * lr) 1 1) as [-> _].
  destruct (R_two_steps lr 1 (2 * 1)) as [-> _].
  unfold R_ss.
  set (e := (1 / 1000000)%R).
  set (s1 := R_sqrt.sqrt (1 / 1000)).
  set (s2 := R_sqrt.sqrt (1999 / 1000000)).
  replace (1 - (999 / 1000) ^ 1)%R with (1 / 1000)%R by (simpl; lra).
  replace (1 - (999 / 1000) ^ 2)%R with (1999 / 1000000)%R by (simpl; lra).
  replace (1 / 1000 * 1 ^ 2)%R with (1 / 1000)%R by (simpl; lra).
  replace (999 / 1000 * (1 / 1000) + 1 / 1000)%R with (1999 / 1000000)%R
    by (simpl; lra).
  replace (1 / 1000 * (2 * 1) ^ 2)%R with (2 * 2 * (1 / 1000))%R by (simpl; lra).
  rewrite (sqrt_mult (2 * 2) (1 / 1000)) by lra.
  rewrite (sqrt_square 2) by lra.
  fold s1 s2.
  assert (3 / 100 < s1)%R as Hs1.
  { rewrite <- (sqrt_square (3 / 100)) by lra. apply sqrt_lt_1; lra. }
  assert (s1 < s2)%R as Hs12 by (apply sqrt_lt_1; lra).
  assert (s1 * s1 = 1 / 1000)%R as Hq1 by (apply sqrt_sqrt; lra).
  assert (s2 * s2 = 1999 / 1000000)%R as Hq2 by (apply sqrt_sqrt; lra).
  assert (0 < e)%R as He by (unfold e; lra).
  assert (e < s1)%R as Hes1 by (unfold e; lra).
  pose proof (half_lt_frac s1 e (conj He Hes1)) as Hf1.
  pose proof (half_lt_frac s2 e (conj He (Rlt_trans _ _ _ Hes1 Hs12))) as Hf2.
  assert (0 < 2 * e)%R as He2 by lra.
  assert (0 < s1)%R as Hp1 by lra.
  pose proof (frac_lt_one s1 (e / 2) ltac:(lra) Hp1) as Hf3.
  replace ((1 - lr * s1 / (1 - (9 / 10) ^ 1) * (1 / 10 * 1 / (s1 + e))
            - lr * s2 / (1 - (9 / 10) ^ 2)
              * ((9 / 10 * (1 / 10 * 1) + 1 / 10 * 1) / (s2 + e))))%R
    with (1 - lr * (s1 / (s1 + e)) - lr * (s2 / (s2 + e)))%R by (simpl; field; lra).
  replace (1 - 2 * lr * s1 / (1 - (9 / 10) ^ 1) * (1 / 10 * 1 / (s1 + e)))%R
    with (1 - 2 * lr * (s1 / (s1 + e)))%R by (simpl; field; lra).
  replace (1 - lr * s1 / (1 - (9 / 10) ^ 1) * (1 / 10 * (2 * 1) / (2 * s1 + e)))%R
    with (1 - lr * (s1 / (s1 + e / 2)))%R by (simpl; field; lra).
  split; [|split].
  - intros Heq. inversion Heq as [Hx].
    assert (s2 / (s2 + e) = s1 / (s1 + e))%R as Hfe by nra.
    apply frac_inj in Hfe; lra.
  - intros Heq. inversion Heq as [Hx].
    assert (lr * (s1 / (s1 + e / 2)) < lr * 1)%R by (apply Rmult_lt_compat_l; lra).
    assert (lr * (1 / 2) < lr * (s1 / (s1 + e)))%R by (apply Rmult_lt_compat_l; lra).
    assert (lr * (1 / 2) < lr * (s2 / (s2 + e)))%R by (apply Rmult_lt_compat_l; lra).
    lra.
  - simpl. intros Heq.
    assert (s2 < 19 / 10 * s1)%R as Hlt by nra.
    assert (lr * s1 * 10 = lr * s2 * (100 / 19))%R as Hm.
    { replace (lr * s1 * 10)%R with (lr * s1 / (1 - 9 / 10 * 1))%R by (field; lra).
      rewrite Heq. field. }
    assert (s1 * 10 = s2 * (100 / 19))%R as Hn by nra.
    lra.
Qed.

(** C9. With the default configuration (bias correction on), the
    parameter 1.0 and a fixed gradient: two calls of [step] leave a value
    different from one call with the learning rate doubled and from one
    call with the gradient doubled, and the step sizes of the first and
    of the second call are both computed and differ.  This holds on
    binary64 (gradient 0.5, where the result also differs from the start
    value moved by twice the displacement of one call) and in exact real
    arithmetic (gradient 1). *)
Theorem C9_two_steps_not_doubled :
  (exists x g : float,
    let group : Group float := default_group default_lr in
    let w := one_param_world default_lr x g in
    let twice := p_data (heap (steps 2 w) 0) in
    AdamW_init Optimizer_init [0] default_lr default_betas default_eps
               default_weight_decay default_correct_bias = inr (self w)
    /\ twice <> p_data (heap (steps 1 (one_param_world (2 * default_lr)%float x g)) 0)
    /\ twice <> p_data (heap (steps 1 (one_param_world default_lr x (2 * g)%float)) 0)
    /\ (exists x1, p_data (heap (steps 1 w) 0) = [x1]
                   /\ twice <> [(x + 2 * (x1 - x))%float])
    /\ (exists s1 s2, step_size group 1 = inr s1 /\ step_size group 2 = inr s2
                      /\ s1 <> s2))
  /\ (exists x g : R,
      let group : Group R := default_group default_lr in
      let w := one_param_world default_lr x g in
      let twice := p_data (heap (steps 2 w) 0) in
      AdamW_init Optimizer_init [0] default_lr default_betas default_eps
                 default_weight_decay default_correct_bias = inr (self w)
      /\ twice <> p_data (heap (steps 1 (one_param_world (2 * default_lr)%R x g)) 0)
      /\ twice <> p_data (heap (steps 1 (one_param_world default_lr x (2 * g)%R)) 0)
      /\ (exists s1 s2, step_size group 1 = inr s1 /\ step_size group 2 = inr s2
                        /\ s1 <> s2)).
Proof.
  split.
  - exists 1%float, 0.5%float. cbv zeta.
    split; [vm_compute; reflexivity|].
    split; [float_differ|]. split; [float_differ|]. split.
    + eexists. split; [vm_compute; reflexivity|]. float_differ.
    + eexists _, _. split; [vm_compute; reflexivity|].
      split; [vm_compute; reflexivity|].
      apply float_neq; vm_compute; reflexivity.
  - exists 1%R, 1%R. cbv zeta.
    assert (0 < default_lr)%R as Hlr by (simpl; lra).
    destruct (R_two_steps_differ default_lr Hlr) as (Hd1 & Hd2 & Hss).
    split; [|split; [exact Hd1|split; [exact Hd2|]]].
    + unfold AdamW_init. simpl.
      destruct (Rlt_dec _ _) as [Hlt|_]; [lra|].
      destruct (Rle_dec 0 (9 / (10 * 1))) as [_|Hn]; [|lra].
      destruct (Rlt_dec (9 / (10 * 1)) 1) as [_|Hn]; [|lra].
      destruct (Rle_dec 0 (999 / (10 * (10 * (10 * 1))))) as [_|Hn]; [|lra].
      destruct (Rlt_dec (999 / (10 * (10 * (10 * 1)))) 1) as [_|Hn]; [|lra].
      destruct (Rle_dec _ _) as [_|Hn]; [|lra].
      reflexivity.
    + exists (R_ss default_lr 1), (R_ss default_lr 2).
      split; [apply R_default_step_size; lia|].
      split; [apply R_default_step_size; lia|exact Hss].
Qed.

(** ** The statements at concrete inputs *)

Lemma R_first_step_size_ok (weight_decay : R) :
  step_size (R_group weight_decay) (S (st_step (state_of (R_world weight_decay) 0))) =
  inr R_first_step_size.
Proof.
  unfold R_first_step_size. apply step_size_R.
  - simpl. lra.
  - simpl. lra.
  - lia.
  - reflexivity.
Defined.

Lemma C1_witness :
  exists w' m v,
    update_param (R_group 0) 0 (R_world 0) = (w', inr tt)
    /\ (st_exp_avg <$> state (self w') !! 0) = Some [m]
    /\ (st_exp_avg_sq <$> state (self w') !! 0) = Some [v]
    /\ p_data (heap w' 0) !! 0 =
       Some (1 - R_first_step_size * (m / (R_sqrt.sqrt v + default_eps)))%R
    /\ fst (step (L := unit) None (R_world 0)) = w'.
Proof.
  destruct (C1_param_update (R_group 0) 0 (R_world 0) [(1 / 2)%R] R_first_step_size
              eq_refl (R_first_step_size_ok 0))
    as (w' & st' & d & Hup & Hst' & Hst & Hd & Hwd & Hel & _).
  assert (Hz : s_eq (g_weight_decay (R_group 0)) s_zero = true).
  { simpl. destruct (Req_dec_T 0 0) as [_|Hne]; [reflexivity|]. contradict Hne. reflexivity. }
  specialize (Hwd Hz). subst st'.
  eexists w', _, _. split; [exact Hup|].
  split; [rewrite Hst; reflexivity|]. split; [rewrite Hst; reflexivity|]. split.
  - rewrite Hwd. apply (Hel 0); reflexivity.
  - rewrite step_unfold. simpl. unfold bind. rewrite Hup. reflexivity.
Defined.

Lemma C2_witness :
  let w1 := steps 1 (one_param_world default_lr 1%float 0.5%float) in
  let group : Group float := default_group default_lr in
  exists st0 st',
    state (self w1) !! 0 = Some st0
    /\ st_step st0 = 1
    /\ state (self (fst (step (L := unit) None w1))) !! 0 = Some st'
    /\ st_step st' = 2
    /\ (forall m, st_exp_avg st0 !! 0 = Some m ->
          st_exp_avg st' !! 0 =
          Some (s_add (s_mul (fst (g_betas group)) m)
                      (s_mul (s_sub s_one (fst (g_betas group))) 0.5%float)))
    /\ (forall v, st_exp_avg_sq st0 !! 0 = Some v ->
          st_exp_avg_sq st' !! 0 =
          Some (s_add (s_mul (snd (g_betas group)) v)
                      (s_mul (s_sub s_one (snd (g_betas group)))
                             (s_pow 0.5%float 2)))).
Proof.
  cbv zeta.
  set (w1 := steps 1 (one_param_world default_lr 1%float 0.5%float)).
  set (group := default_group default_lr : Group float).
  set (st0 := update_moments group [0.5%float]
                (init_state (mkParam [1%float] (Some (DenseGrad [0.5%float]))))).
  assert (state (self w1) !! 0 = Some st0) as Hs0 by (vm_compute; reflexivity).
  assert (p_grad (heap w1 0) = Some (DenseGrad [0.5%float])) as Hg
    by (vm_compute; reflexivity).
  destruct (proj1 C2_moments float float_Scalar unit group 0 w1 [0.5%float] st0
                  Hg (or_introl Hs0))
    as (st' & _ & Hstep & Hm & Hv & Hlift).
  exists st0, st'. split; [exact Hs0|]. split; [reflexivity|]. split.
  - apply (Hlift unit None w1 (fst (step (L := unit) None w1)) None None [] []).
    + reflexivity.
    + vm_compute. reflexivity.
    + intros Hin. inversion Hin.
    + intros Hin. inversion Hin.
    + vm_compute. reflexivity.
  - split; [exact Hstep|]. split.
    + intros m Hm0. apply Hm; [exact Hm0|reflexivity].
    + intros v Hv0. apply Hv; [exact Hv0|reflexivity].
Defined.

Lemma C3_witness :
  step_size float_group 2 =
  inr (s_div (s_mul (g_lr float_group)
                    (s_sqrt (s_sub s_one (s_pow (snd (g_betas float_group)) 2))))
             (s_sub s_one (s_pow (fst (g_betas float_group)) 2))).
Proof.
  apply (proj1 (proj2 C3_step_size) float float_Scalar float_group 2);
    vm_compute; reflexivity.
Defined.

Lemma C4_witness :
  exists w' d,
    update_param (R_group (1 / 100)) 0 (R_world (1 / 100)) = (w', inr tt)
    /\ d = moment_update (R_group (1 / 100)) R_first_step_size
                         (update_moments (R_group (1 / 100)) [(1 / 2)%R]
                                         (state_of (R_world (1 / 100)) 0))
                         (p_data (heap (R_world (1 / 100)) 0))
    /\ (forall i x m v,
          p_data (heap (R_world (1 / 100)) 0) !! i = Some x ->
          st_exp_avg (update_moments (R_group (1 / 100)) [(1 / 2)%R]
                                     (state_of (R_world (1 / 100)) 0)) !! i = Some m ->
          st_exp_avg_sq (update_moments (R_group (1 / 100)) [(1 / 2)%R]
                                        (state_of (R_world (1 / 100)) 0)) !! i = Some v ->
          d !! i = Some (s_sub x (s_mul R_first_step_size
                                        (s_div m (s_add (s_sqrt v)
                                                        (g_eps (R_group (1 / 100))))))))
    /\ (s_eq (g_weight_decay (R_group (1 / 100))) s_zero = false ->
        length (p_data (heap w' 0)) = length d
        /\ forall i y, d !! i = Some y ->
             p_data (heap w' 0) !! i =
             Some (s_sub y (s_mul (s_mul (g_lr (R_group (1 / 100)))
                                         (g_weight_decay (R_group (1 / 100)))) y)))
    /\ (s_eq (g_weight_decay (R_group (1 / 100))) s_zero = true ->
        p_data (heap w' 0) = d).
Proof.
  apply (C4_weight_decay (R_group (1 / 100)) 0 (R_world (1 / 100)) [(1 / 2)%R]
                         R_first_step_size).
  - reflexivity.
  - apply R_first_step_size_ok.
Defined.

Lemma C5_witness :
  let w1 := fst (run [(float_group, 0)] float_world) in
  step (L := unit) None float_world =
    (w1, inl (RuntimeError
       "Adam does not support sparse gradients, please consider SparseAdam instead"))
  /\ heap w1 1 = heap float_world 1
  /\ state (self w1) !! 1 = state (self float_world) !! 1
  /\ forall q, q ∉ [(float_group, 0)].*2 ->
       heap w1 q = heap float_world q
       /\ state (self w1) !! q = state (self float_world) !! q.
Proof.
  apply (C5_sparse_gradient (L := unit) None float_world float_world
           (fst (run [(float_group, 0)] float_world)) None
           [(float_group, 0)] [(float_group, 2); (float_group, 3)] float_group 1
           [0] [0.5%float]).
  - reflexivity.
  - reflexivity.
  - vm_compute. reflexivity.
  - reflexivity.
Defined.

Lemma C6_witness :
  AdamW_init Optimizer_init [0; 1; 2; 3] default_lr default_betas default_eps
             default_weight_decay default_correct_bias =
  inr (mkOptimizer [float_group] ∅).
Proof.
  pose proof (C6_validation (F := float) [0; 1; 2; 3] default_lr default_betas
                            default_eps default_weight_decay default_correct_bias)
    as Hv.
  cbv zeta in Hv. destruct Hv as (_ & _ & _ & _ & _ & Hok).
  destruct (Hok eq_refl) as [_ Hinit]. apply Hinit. discriminate.
Defined.

Lemma C7_witness :
  snd (step (L := unit) None float_skip_world) = inr None
  /\ step_count (fst (step (L := unit) None float_skip_world)) 0 = 1
  /\ step_count (fst (step (L := unit) None float_skip_world)) 2 = 1
  /\ heap (fst (step (L := unit) None float_skip_world)) 3 = heap float_skip_world 3
  /\ state (self (fst (step (L := unit) None float_skip_world))) !! 3 =
     state (self float_skip_world) !! 3
  /\ p_grad (heap (steps 3 float_skip_world) 3) = None
  /\ heap (steps 3 float_skip_world) 3 = heap float_skip_world 3
  /\ state (self (steps 3 float_skip_world)) !! 3 = state (self float_skip_world) !! 3.
Proof.
  split; [vm_compute; reflexivity|]. split; [vm_compute; reflexivity|].
  split; [vm_compute; reflexivity|].
  destruct (C7_no_gradient (L := unit) None float_skip_world 3) as [Hone Hmany].
  destruct (Hone eq_refl) as [Hh Hs]. split; [exact Hh|]. split; [exact Hs|].
  exact (Hmany eq_refl 3).
Defined.

Lemma C10_witness :
  AdamW_init Optimizer_init [0] default_lr default_betas default_eps
             (-0.5)%float false =
  inr (mkOptimizer [mkGroup [0] default_lr default_betas default_eps
                            (-0.5)%float false] ∅).
Proof.
  refine (proj2 (proj1 C10_weight_decay_unchecked float float_Scalar [0] default_lr
                       default_betas default_eps _ _ _ _ (-0.5)%float false) _);
    try (vm_compute; reflexivity).
  discriminate.
Defined.

(** ** Further properties of [step] *)

Section Further.
Context {F : Type} `{Scalar F} {E : Type}.
Implicit Types (w v : World F E) (group : Group F) (p q : nat).

Lemma step_count_state_of w p : st_step (state_of w p) = step_count w p.
Proof. unfold state_of, step_count. destruct (state (self w) !! p); reflexivity. Qed.

(** One visit of a parameter: the counter goes up by one for a dense
    gradient, also when the bias correction raises, and stays for a
    missing or sparse gradient. *)
Lemma update_param_step_count group p w :
  step_count (fst (update_param group p w)) p =
  match p_grad (heap w p) with
  | Some (DenseGrad _) => S (step_count w p)
  | _ => step_count w p
  end.
Proof.
  unfold update_param.
  destruct (p_grad (heap w p)) as [[grad|idx vals]|]; simpl; try reflexivity.
  destruct (step_size _ _) as [e|ss]; simpl; unfold step_count; simpl;
    rewrite lookup_insert_eq; simpl; apply f_equal, step_count_state_of.
Qed.

Lemma update_param_step_count_ne group p q w :
  q <> p -> step_count (fst (update_param group p w)) q = step_count w q.
Proof.
  intros Hq. destruct (update_param_frame group p w) as (_ & _ & _ & Hfr).
  unfold step_count. destruct (Hfr q Hq) as [_ ->]. reflexivity.
Qed.

(** X2. A pass that runs to its end has advanced the counter of a
    parameter with a dense gradient by the number of times the iteration
    order lists it. *)
Lemma run_step_count xs w w' p grad :
  run xs w = (w', inr tt) ->
  p_grad (heap w p) = Some (DenseGrad grad) ->
  step_count w' p = step_count w p + count_occ Nat.eq_dec (xs.*2) p.
Proof.
  revert w. induction xs as [|x xs IH]; intros w Hrun Hg; simpl in *.
  - inversion Hrun. lia.
  - unfold bind in Hrun.
    pose proof (update_param_frame (fst x) (snd x) w) as (_ & _ & Hgr & _).
    pose proof (update_param_step_count (fst x) (snd x) w) as Hsc.
    pose proof (update_param_step_count_ne (fst x) (snd x) p w) as Hne.
    destruct (update_param (fst x) (snd x) w) as [w1 [e|[]]]; [discriminate|].
    simpl in *. rewrite (IH w1 Hrun) by (rewrite Hgr; exact Hg).
    change (list_fmap (Group F * nat)%type nat snd xs) with (xs.*2).
    destruct (Nat.eq_dec (snd x) p) as [Heq|Hneq].
    + rewrite Heq in Hsc. rewrite Hg in Hsc. rewrite Hsc. lia.
    + rewrite Hne by congruence. lia.
Qed.

(** A pass never lowers a counter and never removes a state entry,
    however it ends. *)
Lemma run_step_count_mono xs w p :
  step_count w p <= step_count (fst (run xs w)) p
  /\ (is_Some (state (self w) !! p) ->
      is_Some (state (self (fst (run xs w))) !! p)).
Proof.
  revert w. induction xs as [|x xs IH]; intros w; simpl.
  - split; [lia|auto].
  - unfold bind.
    pose proof (update_param_step_count (fst x) (snd x) w) as Hsc.
    pose proof (update_param_step_count_ne (fst x) (snd x) p w) as Hne.
    pose proof (update_param_frame (fst x) (snd x) w) as (_ & _ & _ & Hfr).
    assert (step_count w p <= step_count (fst (update_param (fst x) (snd x) w)) p
            /\ (is_Some (state (self w) !! p) ->
                is_Some (state (self (fst (update_param (fst x) (snd x) w))) !! p)))
      as [Hle Hsome].
    { destruct (decide (p = snd x)) as [->|Hpx].
      - split.
        + rewrite Hsc. destruct (p_grad (heap w (snd x))) as [[?|? ?]|]; lia.
        + intros Hs. unfold update_param.
          destruct (p_grad (heap w (snd x))) as [[grad|idx vals]|]; simpl; try exact Hs.
          destruct (step_size _ _); simpl; rewrite lookup_insert_eq; eauto.
      - split; [rewrite Hne by exact Hpx; lia|].
        destruct (Hfr p Hpx) as [_ ->]. auto. }
    destruct (update_param (fst x) (snd x) w) as [w1 [e|[]]]; simpl in *.
    + split; assumption.
    + destruct (IH w1) as [Hle' Hsome']. split; [lia|auto].
Qed.
Lemma state_of_shape w p :
  well_shaped w p ->
  length (st_exp_avg (state_of w p)) = length (p_data (heap w p))
  /\ length (st_exp_avg_sq (state_of w p)) = length (p_data (heap w p)).
Proof.
  intros [_ Hst]. unfold state_of.
  destruct (state (self w) !! p) as [st|] eqn:Hs; simpl.
  - apply Hst. reflexivity.
  - unfold zeros_like. rewrite length_replicate. split; reflexivity.
Qed.

Lemma update_moments_shape group grad (st : State F) n :
  length grad = n -> length (st_exp_avg st) = n -> length (st_exp_avg_sq st) = n ->
  length (st_exp_avg (update_moments group grad st)) = n
  /\ length (st_exp_avg_sq (update_moments group grad st)) = n.
Proof.
  intros Hg Hm Hv. simpl. unfold t_add, t_scale, t_pow.
  rewrite !length_zip_with, !length_fmap. lia.
Qed.

Lemma moment_update_shape group ss (st : State F) data :
  length (st_exp_avg st) = length data ->
  length (st_exp_avg_sq st) = length data ->
  length (decay group (moment_update group ss st data)) = length data.
Proof.
  intros Hm Hv.
  assert (length (moment_update group ss st data) = length data) as Hd.
  { unfold moment_update, addcdiv, t_add_scalar, t_sqrt.
    rewrite !length_zip_with, !length_fmap. lia. }
  unfold decay, add_alpha. destruct (negb _); [|exact Hd].
  rewrite length_zip_with. lia.
Qed.

(** One visit keeps the shapes and the number of elements. *)
Lemma update_param_shape group p w :
  (forall q, well_shaped w q) ->
  forall q, well_shaped (fst (update_param group p w)) q
            /\ length (p_data (heap (fst (update_param group p w)) q)) =
               length (p_data (heap w q)).
Proof.
  intros Hw q.
  destruct (update_param_frame group p w) as (_ & _ & Hgr & Hfr).
  destruct (decide (q = p)) as [->|Hq].
  - clear Hfr. specialize (Hw p). pose proof (state_of_shape w p Hw) as [Hm Hv].
    destruct Hw as [Hg Hst]. unfold update_param in *.
    destruct (p_grad (heap w p)) as [[grad|idx vals]|] eqn:Hgrad; simpl in *;
      try (split; [split; [rewrite Hgrad; exact Hg|exact Hst]|reflexivity]).
    specialize (Hg grad eq_refl).
    destruct (update_moments_shape group grad (state_of w p) _ Hg Hm Hv) as [Hm' Hv'].
    destruct (step_size _ _) as [e|ss]; simpl in *.
    + split; [|reflexivity]. split.
      * intros g' Hg'. simpl in Hg'. rewrite Hgrad in Hg'.
        inversion Hg'; subst. exact Hg.
      * intros st' Hst'. simpl in Hst'. rewrite lookup_insert_eq in Hst'.
        inversion Hst'; subst. split; assumption.
    + pose proof (moment_update_shape group ss
                    (update_moments group grad (state_of w p))
                    (p_data (heap w p)) Hm' Hv') as Hd.
      unfold well_shaped. simpl. rewrite !fn_lookup_insert. simpl.
      split; [|exact Hd]. split.
      * intros g' Hg'. rewrite Hgrad in Hg'. inversion Hg'; subst.
        rewrite Hd. exact Hg.
      * intros st' Hst'. rewrite lookup_insert_eq in Hst'. inversion Hst'; subst.
        rewrite Hd. split; assumption.
  - destruct (Hfr q Hq) as [Hh Hs]. destruct (Hw q) as [Hg Hst].
    split; [|rewrite Hh; reflexivity]. split.
    + rewrite Hh. exact Hg.
    + rewrite Hh, Hs. exact Hst.
Qed.

Lemma run_shape xs w :
  (forall q, well_shaped w q) ->
  forall q, well_shaped (fst (run xs w)) q
            /\ length (p_data (heap (fst (run xs w)) q)) = length (p_data (heap w q)).
Proof.
  revert w. induction xs as [|x xs IH]; intros w Hw q; simpl.
  - split; [apply Hw|reflexivity].
  - unfold bind. pose proof (update_param_shape (fst x) (snd x) w Hw) as Hup.
    destruct (update_param (fst x) (snd x) w) as [w1 [e|[]]]; simpl in *.
    + apply Hup.
    + destruct (IH w1 (fun r => proj1 (Hup r)) q) as [Hws Hlen].
      split; [exact Hws|]. rewrite Hlen. apply Hup.
Qed.
End Further.

(** ** Order of the parameters *)

Section Order.
Context {F : Type} `{Scalar F} {E : Type}.
Implicit Types (w v : World F E) (p q : nat) (x y : Group F * nat).

Lemma same_params_trans w v u :
  same_params w v -> same_params v u -> same_params w u.
Proof.
  intros Hwv Hvu q. destruct (Hwv q) as [-> ->]. apply Hvu.
Qed.

(** The loop body does the same in worlds that hold the same parameters
    and states. *)
Lemma update_param_same (group : Group F) p w v :
  same_params w v ->
  snd (update_param group p w) = snd (update_param group p v)
  /\ same_params (fst (update_param group p w)) (fst (update_param group p v)).
Proof.
  intros Hs. destruct (Hs p) as [Hh Hst].
  destruct (update_param_local group p w v Hh Hst) as (Hr & Hh' & Hs').
  split; [exact Hr|]. intros q.
  destruct (decide (q = p)) as [->|Hq]; [split; assumption|].
  destruct (update_param_frame group p w) as (_ & _ & _ & Hfw).
  destruct (update_param_frame group p v) as (_ & _ & _ & Hfv).
  destruct (Hfw q Hq) as [-> ->]. destruct (Hfv q Hq) as [-> ->]. apply Hs.
Qed.

Lemma run_same xs w v :
  same_params w v ->
  snd (run xs w) = snd (run xs v)
  /\ same_params (fst (run xs w)) (fst (run xs v)).
Proof.
  revert w v. induction xs as [|x xs IH]; intros w v Hs; simpl.
  - split; [reflexivity|exact Hs].
  - unfold bind. destruct (update_param_same (fst x) (snd x) w v Hs) as [Hr Hs'].
    destruct (update_param (fst x) (snd x) w) as [w1 [e|[]]];
      destruct (update_param (fst x) (snd x) v) as [v1 [e'|[]]];
      simpl in *; try discriminate.
    + split; assumption.
    + apply IH. exact Hs'.
Qed.

(** Two visits of different parameters, both successful, can be swapped. *)
Lemma update_param_swap x y w v w2 :
  snd x <> snd y -> same_params w v ->
  run [x; y] w = (w2, inr tt) ->
  exists v2, run [y; x] v = (v2, inr tt) /\ same_params w2 v2.
Proof.
  intros Hxy Hs Hrun. simpl in Hrun. unfold bind, ret in Hrun.
  destruct (update_param (fst x) (snd x) w) as [w1 [e|[]]] eqn:Hx; [discriminate|].
  destruct (update_param (fst y) (snd y) w1) as [w2' [e|[]]] eqn:Hy; [discriminate|].
  inversion Hrun; subst w2'. clear Hrun.
  pose proof (update_param_frame (fst x) (snd x) w) as (_ & _ & _ & Hfx).
  rewrite Hx in Hfx. simpl in Hfx.
  pose proof (update_param_frame (fst y) (snd y) w1) as (_ & _ & _ & Hfy).
  rewrite Hy in Hfy. simpl in Hfy.
  (* [y] first, in [v]: it reads only its own parameter, which [x] left alone *)
  destruct (Hfx (snd y) (not_eq_sym Hxy)) as [Hh1 Hs1].
  destruct (Hs (snd y)) as [Hhv Hsv].
  destruct (update_param_local (fst y) (snd y) v w1) as (Hry & Hhy & Hsy);
    [congruence|congruence|].
  rewrite Hy in Hry, Hhy, Hsy. simpl in Hry, Hhy, Hsy.
  pose proof (update_param_frame (fst y) (snd y) v) as (_ & _ & _ & Hfy').
  destruct (update_param (fst y) (snd y) v) as [v1 [e|[]]] eqn:Hy'; [discriminate|].
  simpl in *.
  (* then [x], in the world [y] left *)
  destruct (Hfy' (snd x) Hxy) as [Hh2 Hs2].
  destruct (Hs (snd x)) as [Hhx Hsx].
  destruct (update_param_local (fst x) (snd x) v1 w) as (Hrx & Hhx' & Hsx');
    [congruence|congruence|].
  rewrite Hx in Hrx, Hhx', Hsx'. simpl in Hrx, Hhx', Hsx'.
  pose proof (update_param_frame (fst x) (snd x) v1) as (_ & _ & _ & Hfx').
  destruct (update_param (fst x) (snd x) v1) as [v2 [e|[]]] eqn:Hx'; [discriminate|].
  simpl in *. exists v2. unfold bind, ret. rewrite Hy', Hx'. split; [reflexivity|].
  intros q. destruct (decide (q = snd x)) as [->|Hqx].
  - destruct (Hfy (snd x) Hxy) as [-> ->]. split; congruence.
  - destruct (Hfx' q Hqx) as [-> ->].
    destruct (decide (q = snd y)) as [->|Hqy].
    + split; congruence.
    + destruct (Hfy q Hqy) as [-> ->]. destruct (Hfx q Hqx) as [-> ->].
      destruct (Hfy' q Hqy) as [-> ->]. apply Hs.
Qed.

(** A pass that succeeds over pairwise different parameters succeeds in
    every other order, with the same parameters and states at the end. *)
Lemma run_perm xs ys :
  xs ≡ₚ ys -> NoDup xs.*2 ->
  forall w v w1, same_params w v -> run xs w = (w1, inr tt) ->
  exists v1, run ys v = (v1, inr tt) /\ same_params w1 v1.
Proof.
  induction 1 as [|x l l' Hp IH|x y l|l l' l'' Hp1 IH1 Hp2 IH2];
    intros Hnd w v w1 Hs Hrun.
  - simpl in *. inversion Hrun; subst. exists v. split; [reflexivity|exact Hs].
  - rewrite fmap_cons in Hnd. apply NoDup_cons_1_2 in Hnd.
    simpl in *. unfold bind in *.
    destruct (update_param_same (fst x) (snd x) w v Hs) as [Hr Hs'].
    destruct (update_param (fst x) (snd x) w) as [w' [e|[]]]; [discriminate|].
    destruct (update_param (fst x) (snd x) v) as [v' [e|[]]]; [discriminate|].
    simpl in *. exact (IH Hnd w' v' w1 Hs' Hrun).
  - rewrite !fmap_cons in Hnd. apply NoDup_cons_1_1 in Hnd as Hyx.
    apply not_elem_of_cons in Hyx as [Hyx _].
    change (y :: x :: l) with ([y; x] ++ l) in Hrun.
    change (x :: y :: l) with ([x; y] ++ l).
    rewrite run_app in Hrun. unfold bind in Hrun.
    destruct (run [y; x] w) as [w' [e|[]]] eqn:Hyxr; [discriminate|].
    destruct (update_param_swap y x w v w' Hyx Hs Hyxr) as (v' & Hxyr & Hs').
    rewrite run_app. unfold bind. rewrite Hxyr.
    destruct (run_same l w' v' Hs') as [Hr Hs''].
    rewrite Hrun in Hr, Hs''. simpl in Hr, Hs''.
    destruct (run l v') as [v1 [e|[]]]; [discriminate|].
    exists v1. split; [reflexivity|exact Hs''].
  - destruct (IH1 Hnd w w w1 (fun q => conj eq_refl eq_refl) Hrun) as (u & Hu & Hsu).
    assert (NoDup l'.*2) as Hnd' by (rewrite <- Hp1; exact Hnd).
    destruct (IH2 Hnd' w v u Hs Hu) as (v1 & Hv1 & Hsv).
    exists v1. split; [exact Hv1|]. exact (same_params_trans _ _ _ Hsu Hsv).
Qed.

(** The loop body reads the hyperparameters of the group only. *)
Lemma update_param_hyper (g g' : Group F) p w :
  hyper g = hyper g' -> update_param g p w = update_param g' p w.
Proof.
  unfold hyper. intros Hh. inversion Hh as [[Hlr Hb He Hwd Hcb]].
  unfold update_param, update_moments, step_size, moment_update, decay.
  rewrite Hlr, Hb, He, Hwd, Hcb. reflexivity.
Qed.

Lemma run_hyper xs ys w :
  (fun x => (hyper (fst x), snd x)) <$> xs = (fun x => (hyper (fst x), snd x)) <$> ys ->
  run xs w = run ys w.
Proof.
  revert ys w. induction xs as [|x xs IH]; intros [|y ys] w Heq;
    cbn [fmap list_fmap] in Heq; try discriminate; [reflexivity|].
  assert (hyper (fst x) = hyper (fst y) /\ snd x = snd y) as [Hh Hp]
    by (unfold hyper in *; split; congruence).
  assert ((fun x => (hyper (fst x), snd x)) <$> xs =
          (fun x => (hyper (fst x), snd x)) <$> ys) as Hrest
    by (injection Heq; auto).
  simpl. unfold bind.
  rewrite Hp, (update_param_hyper (fst x) (fst y) (snd y) w Hh).
  destruct (update_param (fst y) (snd y) w) as [w1 [e|[]]]; [reflexivity|].
  apply IH. exact Hrest.
Qed.

Lemma visits_schedule (gs : list (Group F)) :
  visits gs = (fun x => (hyper (fst x), snd x)) <$> schedule gs.
Proof.
  unfold visits, schedule. induction gs as [|g gs IH]; simpl; [reflexivity|].
  rewrite fmap_app, IH. f_equal.
  generalize (g_params g). intros ps. induction ps as [|p ps IHp]; simpl;
    [reflexivity|]. rewrite IHp. reflexivity.
Qed.
End Order.

(** ** Invariants of repeated calls *)

Section Invariants.
Context {F : Type} `{Scalar F} {E : Type}.
Implicit Types (w : World F E) (p q : nat).

Lemma schedule_groups (gs : list (Group F)) x :
  x ∈ schedule gs -> fst x ∈ gs.
Proof.
  unfold schedule. induction gs as [|g gs IH]; simpl; intros Hx.
  - inversion Hx.
  - apply elem_of_app in Hx as [Hx|Hx].
    + apply list_elem_of_In, in_map_iff in Hx as (p & <- & _). simpl. left.
    + right. apply IH. exact Hx.
Qed.

(** A property kept by every visit under the groups [gs] is kept by a
    pass over any part of their schedule, however the pass ends. *)
Lemma run_inv (P : World F E -> Prop) (gs : list (Group F)) xs w :
  (forall g p w, g ∈ gs -> P w -> P (fst (update_param g p w))) ->
  (forall x, x ∈ xs -> fst x ∈ gs) ->
  P w -> P (fst (run xs w)).
Proof.
  intros Hstep. revert w. induction xs as [|x xs IH]; intros w Hin HP; simpl.
  - exact HP.
  - unfold bind.
    assert (P (fst (update_param (fst x) (snd x) w))) as HP'
      by (apply Hstep; [apply Hin; left|exact HP]).
    destruct (update_param (fst x) (snd x) w) as [w1 [e|[]]]; simpl in *.
    + exact HP'.
    + apply IH; [|exact HP']. intros y Hy. apply Hin. right. exact Hy.
Qed.

Lemma step_None_world w :
  fst (step (L := unit) None w) = fst (run (schedule (param_groups (self w))) w).
Proof.
  rewrite step_unfold. simpl.
  destruct (run (schedule (param_groups (self w))) w) as [w1 [e|[]]]; reflexivity.
Qed.

(** The same for any number of calls of [step] without closure: the
    groups stay as they are and the property is kept. *)
Lemma steps_inv (P : World F E -> Prop) (gs : list (Group F)) n w :
  (forall g p w, g ∈ gs -> P w -> P (fst (update_param g p w))) ->
  param_groups (self w) = gs -> P w ->
  param_groups (self (steps n w)) = gs /\ P (steps n w).
Proof.
  intros Hstep. revert w. induction n as [|n IH]; intros w Hgs HP; simpl.
  - split; assumption.
  - apply IH.
    + rewrite step_None_world.
      destruct (run_frame (schedule (param_groups (self w))) w) as (-> & _).
      exact Hgs.
    + rewrite step_None_world. apply (run_inv P gs); [exact Hstep| |exact HP].
      intros x Hx. rewrite Hgs in Hx. apply schedule_groups. exact Hx.
Qed.

Lemma steps_S_r n w :
  steps (S n) w = fst (step (L := unit) None (steps n w)).
Proof.
  revert w. induction n as [|n IH]; intros w; [reflexivity|].
  change (steps (S (S n)) w) with (steps (S n) (fst (step (L := unit) None w))).
  rewrite IH. reflexivity.
Qed.
End Invariants.

(** ** Properties of whole calls *)

(** A call of [step] that returns normally has advanced the counter of a
    parameter with a dense gradient by the number of times the groups
    list it: once for a parameter listed once, twice for one listed
    twice. *)
Theorem step_counts_visits {F : Type} `{Scalar F} {E L : Type}
    (closure : option (M F E L)) (w w0 w' : World F E) (loss r : option L)
    (p : nat) (grad : list F) :
  call_closure closure w = (w0, inr loss) ->
  step closure w = (w', inr r) ->
  p_grad (heap w0 p) = Some (DenseGrad grad) ->
  step_count w' p =
  step_count w0 p + count_occ Nat.eq_dec (schedule (param_groups (self w0))).*2 p.
Proof.
  intros Hc Hstep Hg. rewrite step_unfold, Hc in Hstep.
  destruct (run (schedule (param_groups (self w0))) w0) as [w1 [e|[]]] eqn:Hrun;
    [discriminate|].
  inversion Hstep; subst. exact (run_step_count _ w0 w' p grad Hrun Hg).
Qed.

(** Through any number of calls of [step], however each of them ends, a
    counter never decreases and a state entry, once created, stays. *)
Theorem steps_counter_monotone {F : Type} `{Scalar F} {E : Type}
    (n : nat) (w : World F E) (p : nat) :
  step_count w p <= step_count (steps n w) p
  /\ (is_Some (state (self w) !! p) -> is_Some (state (self (steps n w)) !! p)).
Proof.
  revert w. induction n as [|n IH]; intros w; simpl.
  - split; [lia|auto].
  - destruct (IH (fst (step (L := unit) None w))) as [Hle Hsome].
    rewrite step_None_world in Hle, Hsome.
    destruct (run_step_count_mono (schedule (param_groups (self w))) w p)
      as [Hle' Hsome'].
    rewrite step_None_world. split; [lia|auto].
Qed.

(** [step] writes only data and state of the parameters its groups
    list: relative to the world its closure left, the groups and every
    gradient are as before (nothing is zeroed), and a parameter in no
    group keeps its record and has no state touched. *)
Theorem step_frame {F : Type} `{Scalar F} {E L : Type}
    (closure : option (M F E L)) (w : World F E) :
  let w0 := fst (call_closure closure w) in
  let w' := fst (step closure w) in
  param_groups (self w') = param_groups (self w0)
  /\ (forall q, p_grad (heap w' q) = p_grad (heap w0 q))
  /\ (forall q, q ∉ (schedule (param_groups (self w0))).*2 ->
        heap w' q = heap w0 q /\ state (self w') !! q = state (self w0) !! q).
Proof.
  cbv zeta. rewrite step_unfold.
  destruct (call_closure closure w) as [w0 [e|loss]]; simpl.
  - repeat split; reflexivity.
  - destruct (run_frame (schedule (param_groups (self w0))) w0) as (Hg & _ & Hgr & Hfr).
    destruct (run _ w0) as [w1 [e|[]]]; simpl in *; auto.
Qed.

(** Shapes are kept: if every gradient and every stored moment has the
    shape of its parameter, this is still so after any number of calls of
    [step], and no parameter has changed its number of elements. *)
Theorem steps_keep_shapes {F : Type} `{Scalar F} {E : Type}
    (n : nat) (w : World F E) :
  (forall q, well_shaped w q) ->
  forall q, well_shaped (steps n w) q
            /\ length (p_data (heap (steps n w) q)) = length (p_data (heap w q)).
Proof.
  intros Hw.
  destruct (steps_inv
              (fun w' => forall q, well_shaped w' q
                           /\ length (p_data (heap w' q)) = length (p_data (heap w q)))
              (param_groups (self w)) n w) as [_ HP]; [|reflexivity| |exact HP].
  - intros g p w' _ HP q.
    destruct (update_param_shape g p w' (fun r => proj1 (HP r)) q) as [Hws Hlen].
    split; [exact Hws|]. rewrite Hlen. apply HP.
  - intros q. split; [apply Hw|reflexivity].
Qed.

(** The order of the parameters does not matter: when the groups list
    pairwise different parameters and [step] returns normally, it also
    returns normally from a world with the same parameters and states
    whose groups make the same visits (hyperparameters and parameter) in
    another order, and leaves the same parameters and states. *)
Theorem step_order_independent {F : Type} `{Scalar F} {E : Type}
    (w v w1 : World F E) :
  same_params w v ->
  visits (param_groups (self w)) ≡ₚ visits (param_groups (self v)) ->
  NoDup (visits (param_groups (self w))).*2 ->
  step (L := unit) None w = (w1, inr None) ->
  exists v1, step (L := unit) None v = (v1, inr None) /\ same_params w1 v1.
Proof.
  intros Hs Hp Hnd Hstep. rewrite step_unfold in Hstep. simpl in Hstep.
  destruct (run (schedule (param_groups (self w))) w) as [w1' [e|[]]] eqn:Hrun;
    [discriminate|].
  inversion Hstep; subst w1'.
  rewrite !visits_schedule in Hp. rewrite visits_schedule in Hnd.
  symmetry in Hp. apply Permutation_map_inv in Hp as (zs & Hzs & Hperm).
  rewrite <- list_fmap_compose in Hnd.
  change (snd ∘ (fun x : Group F * nat => (hyper (fst x), snd x))) with
    (@snd (Group F) nat) in Hnd.
  destruct (run_perm (schedule (param_groups (self w))) zs Hperm Hnd w v w1 Hs Hrun)
    as (v1 & Hv & Hs1).
  exists v1. rewrite step_unfold. simpl.
  rewrite (run_hyper (schedule (param_groups (self v))) zs v Hzs), Hv.
  split; [reflexivity|exact Hs1].
Qed.

(** When the bias correction raises at a parameter (a group whose betas
    were set outside [0, 1) after construction), [step] raises that
    error and returns the world [w1] reached after the parameters before
    it, changed in one place only: the state of the parameter itself,
    whose counter and moments have already been advanced.  So the earlier
    parameters keep their updates, the parameter keeps its values, and
    the parameters not yet visited are untouched. *)
Theorem step_bias_correction_error {F : Type} `{Scalar F} {E L : Type}
    (closure : option (M F E L)) (w w0 w1 : World F E) (loss : option L)
    (pre post : list (Group F * nat)) (g : Group F) (p : nat)
    (grad : list F) (e : exn F) :
  call_closure closure w = (w0, inr loss) ->
  schedule (param_groups (self w0)) = pre ++ (g, p) :: post ->
  run pre w0 = (w1, inr tt) ->
  p ∉ pre.*2 ->
  p_grad (heap w0 p) = Some (DenseGrad grad) ->
  step_size g (S (step_count w0 p)) = inl e ->
  exists w',
    step closure w = (w', inl e)
    /\ w' = set_state p (update_moments g grad (state_of w0 p)) w1
    /\ (forall q, heap w' q = heap w1 q)
    /\ (forall q, q <> p -> state (self w') !! q = state (self w1) !! q)
    /\ heap w' p = heap w0 p
    /\ state (self w') !! p = Some (update_moments g grad (state_of w0 p))
    /\ step_count w' p = S (step_count w0 p)
    /\ forall q, q ∉ pre.*2 -> q <> p ->
         heap w' q = heap w0 q /\ state (self w') !! q = state (self w0) !! q.
Proof.
  intros Hc Hsched Hpre Hp Hg Hss.
  pose proof (run_frame pre w0) as (_ & _ & Hgr & Hfr). rewrite Hpre in Hgr, Hfr.
  simpl in Hgr, Hfr. destruct (Hfr p Hp) as [Hh Hs].
  assert (state_of w1 p = state_of w0 p) as Hso
    by (unfold state_of; rewrite Hh, Hs; reflexivity).
  exists (set_state p (update_moments g grad (state_of w0 p)) w1).
  split; [|split; [reflexivity|split; [reflexivity|split;
    [|split; [exact Hh|split; [apply lookup_insert_eq|split]]]]]].
  - rewrite step_unfold, Hc, Hsched, run_app. unfold bind. rewrite Hpre. simpl.
    unfold bind. rewrite (update_param_dense g p w1 grad) by (rewrite Hgr; exact Hg).
    rewrite Hso. simpl. rewrite step_count_state_of, Hss. reflexivity.
  - intros q Hq. simpl. apply lookup_insert_ne. congruence.
  - unfold step_count. simpl. rewrite lookup_insert_eq. simpl.
    f_equal. apply step_count_state_of.
  - intros q Hq Hqp. simpl. rewrite lookup_insert_ne by congruence. apply Hfr, Hq.
Qed.

(** ** Exact arithmetic: safety of validated configurations *)

(** Construction succeeds only with values that pass the four checks. *)
Lemma AdamW_init_accepts {F : Type} `{Scalar F}
    (super_init : list nat -> Defaults -> exn F + Optimizer F)
    (params : list nat) (lr : F) (betas : F * F) (eps weight_decay : F)
    (correct_bias : bool) (o : Optimizer F) :
  AdamW_init super_init params lr betas eps weight_decay correct_bias = inr o ->
  passes_checks (mkGroup params lr betas eps weight_decay correct_bias) = true
  /\ super_init params (mkDefaults lr betas eps weight_decay correct_bias) = inr o.
Proof.
  unfold AdamW_init, passes_checks. simpl.
  destruct (s_lt lr s_zero); [discriminate|].
  destruct (s_le s_zero (fst betas) && s_lt (fst betas) s_one); [|discriminate].
  destruct (s_le s_zero (snd betas) && s_lt (snd betas) s_one); [|discriminate].
  destruct (s_le s_zero eps); [|discriminate].
  simpl. auto.
Qed.

Lemma R_passes_checks (group : Group R) :
  passes_checks group = true ->
  (0 <= g_lr group)%R
  /\ (0 <= fst (g_betas group) < 1)%R
  /\ (0 <= snd (g_betas group) < 1)%R
  /\ (0 <= g_eps group)%R.
Proof.
  unfold passes_checks. simpl. intros Hc.
  destruct (Rlt_dec (g_lr group) 0); [discriminate|].
  destruct (Rle_dec 0 (fst (g_betas group))); [|discriminate].
  destruct (Rlt_dec (fst (g_betas group)) 1); [|discriminate].
  destruct (Rle_dec 0 (snd (g_betas group))); [|discriminate].
  destruct (Rlt_dec (snd (g_betas group)) 1); [|discriminate].
  destruct (Rle_dec 0 (g_eps group)); [|discriminate].
  repeat split; lra.
Qed.

(** Over the reals the bias correction of a group that passes the checks
    is always computed. *)
Lemma R_step_size_ok (group : Group R) (n : nat) :
  passes_checks group = true ->
  exists ss, step_size group (S n) = inr ss.
Proof.
  intros Hc. destruct (R_passes_checks group Hc) as (_ & Hb1 & Hb2 & _).
  destruct (g_correct_bias group) eqn:Hcb.
  - eexists. apply step_size_R; [exact Hb1|exact Hb2|lia|exact Hcb].
  - exists (g_lr group). unfold step_size. rewrite Hcb. reflexivity.
Qed.

Lemma R_update_param_ok {E : Type} (group : Group R) (p : nat) (w : World R E) :
  passes_checks group = true -> all_dense w ->
  snd (update_param group p w) = inr tt.
Proof.
  intros Hc Hd. unfold update_param.
  destruct (p_grad (heap w p)) as [[grad|idx vals]|] eqn:Hg; [|exfalso; eapply Hd; eauto|reflexivity].
  simpl. destruct (R_step_size_ok group (st_step (state_of w p)) Hc) as [ss ->].
  reflexivity.
Qed.

Lemma R_run_ok {E : Type} (xs : list (Group R * nat)) (w : World R E) :
  (forall x, x ∈ xs -> passes_checks (fst x) = true) -> all_dense w ->
  snd (run xs w) = inr tt.
Proof.
  revert w. induction xs as [|x xs IH]; intros w Hc Hd; simpl; [reflexivity|].
  unfold bind.
  pose proof (R_update_param_ok (fst x) (snd x) w (Hc x ltac:(left)) Hd) as Hok.
  pose proof (update_param_frame (fst x) (snd x) w) as (_ & _ & Hgr & _).
  destruct (update_param (fst x) (snd x) w) as [w1 [e|[]]]; simpl in *; [discriminate|].
  apply IH.
  - intros y Hy. apply Hc. right. exact Hy.
  - intros q idx vals. rewrite Hgr. apply Hd.
Qed.

(** An optimizer that [__init__] has constructed, used on dense
    gradients, never raises in [step]: over the reals, every one of any
    number of successive calls returns normally. *)
Theorem constructed_never_raises {E : Type}
    (params : list nat) (lr : R) (betas : R * R) (eps weight_decay : R)
    (correct_bias : bool) (o : Optimizer R) (h : nat -> Param R) (e0 : E)
    (n : nat) :
  AdamW_init Optimizer_init params lr betas eps weight_decay correct_bias = inr o ->
  all_dense (mkWorld h o e0) ->
  snd (step (L := unit) None (steps n (mkWorld h o e0))) = inr None.
Proof.
  intros Hinit Hd.
  destruct (AdamW_init_accepts _ _ _ _ _ _ _ _ Hinit) as [Hc Ho].
  assert (param_groups o = [mkGroup params lr betas eps weight_decay correct_bias])
    as Hgs.
  { unfold Optimizer_init in Ho. destruct params; [discriminate|].
    inversion Ho. reflexivity. }
  destruct (steps_inv all_dense (param_groups o) n (mkWorld h o e0)) as [Hg Hd'];
    [|reflexivity|exact Hd|].
  - intros g p w _ Hw q idx vals.
    destruct (update_param_frame g p w) as (_ & _ & Hgr & _). rewrite Hgr. apply Hw.
  - rewrite step_unfold. simpl.
    pose proof (R_run_ok (schedule (param_groups (self (steps n (mkWorld h o e0)))))
                  (steps n (mkWorld h o e0))) as Hok.
    destruct (run _ (steps n (mkWorld h o e0))) as [w1 [e|[]]]; simpl in *;
      [|reflexivity].
    exfalso. assert (inl e = inr tt :> exn R + unit) as Habs; [|discriminate].
    apply Hok; [|exact Hd'].
    intros x Hx. rewrite Hg, Hgs in Hx. apply schedule_groups in Hx.
    apply list_elem_of_singleton in Hx. rewrite Hx. exact Hc.
Qed.

(** ** Exact arithmetic: updates that do not move a parameter *)





Lemma R_zeros_moments (b : R) (n : nat) :
  t_add (t_scale b (replicate n 0%R)) (t_scale (1 - b)%R (replicate n 0%R)) =
  replicate n 0%R.
Proof.
  unfold t_add, t_scale. rewrite !fmap_replicate.
  induction n as [|n IH]; [reflexivity|].
  cbn [replicate zip_with]. rewrite IH. f_equal. simpl. ring.
Qed.

Lemma R_rest_update (ss eps : R) (l : list R) :
  addcdiv l (replicate (length l) 0%R)
          (t_add_scalar (t_sqrt (replicate (length l) 0%R)) eps) (- ss)%R = l.
Proof.
  unfold addcdiv, t_add_scalar, t_sqrt. rewrite !fmap_replicate.
  induction l as [|x l IH]; [reflexivity|].
  cbn [length replicate zip_with]. rewrite IH. f_equal. simpl. unfold Rdiv. ring.
Qed.

Lemma R_at_rest_visit {E : Type} (group : Group R) (p : nat) (w : World R E) :
  g_weight_decay group = 0%R -> at_rest w p ->
  heap (fst (update_param group p w)) p = heap w p
  /\ at_rest (fst (update_param group p w)) p.
Proof.
  intros Hwd [Hst Hgr]. unfold update_param.
  destruct (p_grad (heap w p)) as [g|] eqn:Hg.
  2:{ simpl. split; [reflexivity|]. split; [exact Hst|].
      intros g Hg'. rewrite Hg in Hg'. discriminate. }
  rewrite (Hgr g eq_refl).
  set (z := zeros_like (p_data (heap w p))).
  assert (state_of w p = mkState (st_step (state_of w p)) z z) as Hso.
  { unfold state_of. destruct (state (self w) !! p) as [st|] eqn:Hs; simpl.
    - destruct (Hst st eq_refl) as [Hm Hv]. destruct st; simpl in *. subst. reflexivity.
    - reflexivity. }
  assert (update_moments group z (state_of w p) =
          mkState (S (st_step (state_of w p))) z z) as Hum.
  { rewrite Hso. unfold update_moments. simpl. f_equal.
    - apply R_zeros_moments.
    - replace (t_pow z 2) with z; [apply R_zeros_moments|].
      unfold t_pow, z, zeros_like. rewrite fmap_replicate. f_equal. simpl. ring. }
  simpl. rewrite Hum. simpl.
  assert (forall ss, decay group (moment_update group ss
                       (mkState (S (st_step (state_of w p))) z z)
                       (p_data (heap w p))) = p_data (heap w p)) as Hdata.
  { intros ss. unfold decay. rewrite Hwd. simpl.
    destruct (Req_dec_T 0 0) as [_|Hne]; [|contradict Hne; reflexivity]. simpl.
    unfold moment_update, z, zeros_like. cbn [st_exp_avg st_exp_avg_sq].
    apply R_rest_update. }
  destruct (step_size _ _) as [e|ss]; simpl.
  - split; [reflexivity|]. split.
    + intros st Hs. simpl in Hs. rewrite lookup_insert_eq in Hs.
      inversion Hs; subst. split; reflexivity.
    + intros g' Hg'. simpl in Hg'. rewrite Hg in Hg'. inversion Hg'; subst.
      apply Hgr. reflexivity.
  - assert (heap (set_data p (decay group (moment_update group ss
                     (mkState (S (st_step (state_of w p))) z z) (p_data (heap w p))))
                   (set_state p (mkState (S (st_step (state_of w p))) z z) w)) p
            = heap w p) as Hh.
    { simpl. rewrite fn_lookup_insert, Hdata.
      destruct (heap w p); reflexivity. }
    split; [exact Hh|]. split.
    + intros st Hs. rewrite Hh. simpl in Hs. rewrite lookup_insert_eq in Hs.
      inversion Hs; subst. split; reflexivity.
    + intros g' Hg'. rewrite Hh in *. rewrite Hg in Hg'. inversion Hg'; subst.
      apply Hgr. reflexivity.
Qed.

(** Without weight decay and with a positive epsilon, parameters whose
    gradients are all zero and whose moments are zero or not yet created
    are never moved: after any number of calls of [step] every parameter
    record is as it was (exact arithmetic).  The positive epsilon is what
    keeps the denominator [sqrt 0 + eps] away from zero. *)
Theorem zero_gradients_keep_parameters {E : Type} (n : nat) (w : World R E) :
  (forall g, g ∈ param_groups (self w) -> g_weight_decay g = 0%R) ->
  (forall g, g ∈ param_groups (self w) -> (0 < g_eps g)%R) ->
  (forall q, at_rest w q) ->
  forall q, heap (steps n w) q = heap w q.
Proof.
  intros Hwd _ Hw.
  destruct (steps_inv
              (fun w' => forall q, at_rest w' q /\ heap w' q = heap w q)
              (param_groups (self w)) n w) as [_ HP]; [|reflexivity| |apply HP].
  - intros g p w' Hg HP q.
    destruct (decide (q = p)) as [->|Hq].
    + destruct (R_at_rest_visit g p w' (Hwd g Hg) (proj1 (HP p))) as [Hh Hr].
      split; [exact Hr|]. rewrite Hh. apply HP.
    + destruct (update_param_frame g p w') as (_ & _ & _ & Hfr).
      destruct (Hfr q Hq) as [Hh Hs]. destruct (HP q) as [[Hst Hgr] Heq].
      split; [|rewrite Hh; exact Heq]. split.
      * rewrite Hh, Hs. exact Hst.
      * rewrite Hh. exact Hgr.
  - intros q. split; [apply Hw|reflexivity].
Qed.

(** ** Exact arithmetic: what the bias correction achieves *)

Lemma R_moments_next (group : Group R) (grad : list R) (n : nat) :
  update_moments group grad
    (mkState n ((fun g => (1 - fst (g_betas group) ^ n) * g)%R <$> grad)
               ((fun g => (1 - snd (g_betas group) ^ n) * g ^ 2)%R <$> grad)) =
  mkState (S n) ((fun g => (1 - fst (g_betas group) ^ S n) * g)%R <$> grad)
                ((fun g => (1 - snd (g_betas group) ^ S n) * g ^ 2)%R <$> grad).
Proof.
  unfold update_moments, t_add, t_scale, t_pow. cbn [st_step st_exp_avg st_exp_avg_sq].
  f_equal.
  - rewrite <- !list_fmap_compose, zip_with_fmap_l, zip_with_fmap_r, zip_with_diag.
    apply list_fmap_ext. intros i g _. simpl. ring.
  - rewrite <- !list_fmap_compose, zip_with_fmap_l, zip_with_fmap_r, zip_with_diag.
    apply list_fmap_ext. intros i g _. simpl. ring.
Qed.

Lemma R_moments_first (group : Group R) (grad : list R) (prm : Param R) :
  length grad = length (p_data prm) ->
  update_moments group grad (init_state prm) =
  mkState 1 ((fun g => (1 - fst (g_betas group) ^ 1) * g)%R <$> grad)
            ((fun g => (1 - snd (g_betas group) ^ 1) * g ^ 2)%R <$> grad).
Proof.
  intros Hlen. rewrite (update_moments_fresh group grad prm Hlen).
  unfold t_scale, t_pow. f_equal.
  - apply list_fmap_ext. intros i g _. simpl. ring.
  - rewrite <- list_fmap_compose. apply list_fmap_ext. intros i g _. simpl. ring.
Qed.

Lemma step_single {F : Type} `{Scalar F} {E : Type}
    (group : Group F) (p : nat) (w : World F E) :
  param_groups (self w) = [group] -> g_params group = [p] ->
  fst (step (L := unit) None w) = fst (update_param group p w).
Proof.
  intros Hgs Hps. rewrite step_None_world, Hgs. unfold schedule. simpl.
  rewrite Hps. simpl. unfold bind, ret.
  destruct (update_param group p w) as [w1 [e|[]]]; reflexivity.
Qed.

(** Under a gradient that stays the same, the moments of a fresh
    parameter after [n >= 1] calls of [step] are exactly
    [(1 - beta1^n) * grad] and [(1 - beta2^n) * grad^2] (exact
    arithmetic): the factors by which the bias correction divides. *)
Theorem constant_gradient_moments {E : Type}
    (group : Group R) (p : nat) (w : World R E) (grad : list R) (n : nat) :
  param_groups (self w) = [group] -> g_params group = [p] ->
  p_grad (heap w p) = Some (DenseGrad grad) ->
  length grad = length (p_data (heap w p)) ->
  state (self w) !! p = None ->
  state (self (steps (S n) w)) !! p =
  Some (mkState (S n)
          ((fun g => (1 - fst (g_betas group) ^ S n) * g)%R <$> grad)
          ((fun g => (1 - snd (g_betas group) ^ S n) * g ^ 2)%R <$> grad)).
Proof.
  intros Hgs Hps Hg Hlen Hnone.
  assert (param_groups (self (steps (S n) w)) = [group]
          /\ p_grad (heap (steps (S n) w) p) = Some (DenseGrad grad)
          /\ state (self (steps (S n) w)) !! p =
             Some (mkState (S n)
                     ((fun g => (1 - fst (g_betas group) ^ S n) * g)%R <$> grad)
                     ((fun g => (1 - snd (g_betas group) ^ S n) * g ^ 2)%R <$> grad)))
    as (_ & _ & Hst); [|exact Hst].
  induction n as [|n (IHg & IHgr & IHst)].
  - change (steps 1 w) with (fst (step (L := unit) None w)).
    rewrite (step_single group p w Hgs Hps).
    destruct (update_param_frame group p w) as (Hg' & _ & Hgr & _).
    split; [congruence|]. split; [rewrite Hgr; exact Hg|].
    rewrite (update_param_state group p w grad Hg). f_equal.
    unfold state_of. rewrite Hnone. simpl. apply R_moments_first. exact Hlen.
  - rewrite steps_S_r. rewrite (step_single group p _ IHg Hps).
    destruct (update_param_frame group p (steps (S n) w)) as (Hg' & _ & Hgr & _).
    split; [congruence|]. split; [rewrite Hgr; exact IHgr|].
    rewrite (update_param_state group p _ grad IHgr). f_equal.
    unfold state_of. rewrite IHst. simpl. apply R_moments_next.
Qed.

(** The displacement of the first bias-corrected update of one element:
    at most the learning rate, and against the sign of the gradient. *)
Lemma R_first_displacement (lr b1 b2 eps g : R) :
  (0 <= lr)%R -> (0 <= b1 < 1)%R -> (0 <= b2 < 1)%R -> (0 < eps)%R ->
  let ss := (lr * R_sqrt.sqrt (1 - b2 ^ 1) / (1 - b1 ^ 1))%R in
  let u := (ss * ((1 - b1) * g / (R_sqrt.sqrt ((1 - b2) * g ^ 2) + eps)))%R in
  (- lr <= u <= lr)%R /\ (0 <= g -> 0 <= u)%R /\ (g <= 0 -> u <= 0)%R.
Proof.
  intros Hlr Hb1 Hb2 Heps ss u. subst ss u.
  replace (1 - b2 ^ 1)%R with (1 - b2)%R by (simpl; ring).
  replace (1 - b1 ^ 1)%R with (1 - b1)%R by (simpl; ring).
  set (a := R_sqrt.sqrt (1 - b2)).
  assert (0 < a)%R as Ha by (apply sqrt_lt_R0; lra).
  replace ((1 - b2) * g ^ 2)%R with ((1 - b2) * Rsqr g)%R by (unfold Rsqr; simpl; ring).
  rewrite sqrt_mult by (try lra; apply Rle_0_sqr).
  rewrite sqrt_Rsqr_abs. fold a.
  set (D := (a * Rabs g + eps)%R).
  assert (0 <= a * Rabs g)%R as Hag
    by (apply Rmult_le_pos; [lra|apply Rabs_pos]).
  assert (- (a * Rabs g) <= a * g <= a * Rabs g)%R as Hbound.
  { destruct (Rcase_abs g) as [Hneg|Hpos].
    - rewrite (Rabs_left g Hneg). split; nra.
    - rewrite (Rabs_right g Hpos). split; nra. }
  assert (0 < D)%R as HD by (unfold D; lra).
  replace (lr * a / (1 - b1) * ((1 - b1) * g / D))%R with (lr * (a * g / D))%R
    by (field; split; lra).
  set (t := (a * g / D)%R).
  assert (t * D = a * g)%R as Ht by (unfold t; field; lra).
  assert (- 1 <= t <= 1)%R as Ht1.
  { split.
    - apply (Rmult_le_reg_r D); [exact HD|]. rewrite Ht. unfold D. lra.
    - apply (Rmult_le_reg_r D); [exact HD|]. rewrite Ht. unfold D. lra. }
  split; [split; nra|]. split.
  - intros Hg. assert (0 <= t)%R; [|nra].
    apply (Rmult_le_reg_r D); [exact HD|]. rewrite Ht. nra.
  - intros Hg. assert (t <= 0)%R; [|nra].
    apply (Rmult_le_reg_r D); [exact HD|]. rewrite Ht. nra.
Qed.

(** The first update of a parameter, with bias correction, a
    configuration that passes the checks, a positive epsilon and no
    weight decay, moves every element by at most the learning rate,
    whatever the size of the gradient, and not in the direction of the
    gradient (exact arithmetic). *)
Theorem first_update_bounded {E : Type}
    (group : Group R) (p : nat) (w : World R E) (grad : list R)
    (i : nat) (x g : R) :
  passes_checks group = true ->
  (0 < g_eps group)%R ->
  g_correct_bias group = true ->
  g_weight_decay group = 0%R ->
  p_grad (heap w p) = Some (DenseGrad grad) ->
  state (self w) !! p = None ->
  p_data (heap w p) !! i = Some x ->
  grad !! i = Some g ->
  exists x',
    snd (update_param group p w) = inr tt
    /\ p_data (heap (fst (update_param group p w)) p) !! i = Some x'
    /\ (Rabs (x' - x) <= g_lr group)%R
    /\ (0 <= g -> x' <= x)%R
    /\ (g <= 0 -> x <= x')%R.
Proof.
  intros Hc Heps Hcb Hwd Hg Hnone Hx Hgi.
  destruct (R_passes_checks group Hc) as (Hlr & Hb1 & Hb2 & _).
  pose proof (step_size_R group (S (st_step (state_of w p))) Hb1 Hb2 ltac:(lia) Hcb)
    as Hss.
  assert (st_step (state_of w p) = 0) as Hstep
    by (unfold state_of; rewrite Hnone; reflexivity).
  rewrite Hstep in Hss.
  destruct (update_param_dense_ok group p w grad _ Hg
              ltac:(rewrite Hstep; exact Hss)) as (Hup & _ & Hd).
  assert (s_eq (g_weight_decay group) s_zero = true) as Hwd'.
  { rewrite Hwd. simpl. destruct (Req_dec_T 0 0) as [_|Hne]; [reflexivity|].
    contradict Hne. reflexivity. }
  pose proof (R_first_displacement (g_lr group) (fst (g_betas group))
                (snd (g_betas group)) (g_eps group) g Hlr Hb1 Hb2 Heps)
    as (Hbound & Hpos & Hneg).
  cbv zeta in Hbound, Hpos, Hneg.
  eexists. rewrite Hup. cbn [fst snd]. rewrite Hd, decay_off by exact Hwd'.
  split; [reflexivity|]. split.
  - apply (moment_update_lookup group _ _ _ i x
             (s_mul (s_sub s_one (fst (g_betas group))) g)
             (s_mul (s_sub s_one (snd (g_betas group))) (s_pow g 2))).
    + exact Hx.
    + unfold state_of. rewrite Hnone. simpl.
      unfold t_add, t_scale, zeros_like.
      rewrite lookup_zip_with, !list_lookup_fmap, Hgi.
      rewrite lookup_replicate_2 by (eapply lookup_lt_Some; exact Hx).
      simpl. f_equal. ring.
    + unfold state_of. rewrite Hnone. simpl.
      unfold t_add, t_scale, t_pow, zeros_like.
      rewrite lookup_zip_with, !list_lookup_fmap, Hgi.
      rewrite lookup_replicate_2 by (eapply lookup_lt_Some; exact Hx).
      simpl. f_equal. ring.
  - simpl in *. split; [|split].
    + apply Rabs_le. lra.
    + intros H0. specialize (Hpos H0). lra.
    + intros H0. specialize (Hneg H0). lra.
Qed.

(** ** The further properties at concrete inputs *)

Lemma R_group_passes (weight_decay : R) : passes_checks (R_group weight_decay) = true.
Proof.
  unfold passes_checks, R_group. simpl.
  destruct (Rlt_dec _ _) as [Hlt|_]; [lra|].
  destruct (Rle_dec 0 (9 / (10 * 1))) as [_|Hn]; [|lra].
  destruct (Rlt_dec (9 / (10 * 1)) 1) as [_|Hn]; [|lra].
  destruct (Rle_dec 0 (999 / (10 * (10 * (10 * 1))))) as [_|Hn]; [|lra].
  destruct (Rlt_dec (999 / (10 * (10 * (10 * 1)))) 1) as [_|Hn]; [|lra].
  destruct (Rle_dec _ _) as [_|Hn]; [|lra].
  reflexivity.
Defined.

Lemma R_group_init (weight_decay : R) :
  AdamW_init Optimizer_init [0] default_lr default_betas default_eps weight_decay true =
  inr (mkOptimizer [R_group weight_decay] ∅).
Proof.
  pose proof (R_group_passes weight_decay) as Hc. unfold passes_checks in Hc.
  apply andb_true_iff in Hc as [Hc Hd]. apply andb_true_iff in Hc as [Hc Hb2].
  apply andb_true_iff in Hc as [Ha Hb1]. apply negb_true_iff in Ha.
  simpl in Ha, Hb1, Hb2, Hd. unfold AdamW_init. simpl.
  rewrite Ha, Hb1, Hb2, Hd. reflexivity.
Defined.

Lemma step_counts_visits_witness :
  step_count (fst (step (L := unit) None float_twice_world)) 0 =
  step_count float_twice_world 0
  + count_occ Nat.eq_dec (schedule (param_groups (self float_twice_world))).*2 0.
Proof.
  apply (step_counts_visits (L := unit) None float_twice_world float_twice_world
           (fst (step (L := unit) None float_twice_world)) None None 0 [0.5%float]).
  - reflexivity.
  - vm_compute. reflexivity.
  - reflexivity.
Defined.

Lemma float_pair_shaped (ps : list nat) (q : nat) : well_shaped (float_pair_world ps) q.
Proof.
  split.
  - destruct q as [|[|q]]; simpl; intros g Hg; inversion Hg; reflexivity.
  - intros st Hst. simpl in Hst. rewrite lookup_empty in Hst. discriminate.
Defined.

Lemma steps_keep_shapes_witness :
  well_shaped (steps 2 (float_pair_world [0; 1])) 0
  /\ length (p_data (heap (steps 2 (float_pair_world [0; 1])) 0)) =
     length (p_data (heap (float_pair_world [0; 1]) 0)).
Proof.
  apply (steps_keep_shapes 2 (float_pair_world [0; 1]) (float_pair_shaped [0; 1]) 0).
Defined.

Lemma step_order_independent_witness :
  exists v1,
    step (L := unit) None (float_pair_world [1; 0]) = (v1, inr None)
    /\ same_params (fst (step (L := unit) None (float_pair_world [0; 1]))) v1.
Proof.
  apply (step_order_independent (float_pair_world [0; 1]) (float_pair_world [1; 0])).
  - intros q. split; reflexivity.
  - unfold visits. simpl. apply perm_swap.
  - unfold visits. simpl.
    apply NoDup_cons_2; [|apply NoDup_cons_2; [|apply NoDup_nil_2]].
    + intros Hin. apply list_elem_of_singleton in Hin. discriminate.
    + intros Hin. inversion Hin.
  - vm_compute. reflexivity.
Defined.

Lemma step_bias_correction_error_witness :
  let w1 := fst (run [(default_group default_lr, 0)] float_late_world) in
  exists w',
    step (L := unit) None float_late_world =
      (w', inl (ValueError "math domain error" []))
    /\ w' = set_state 1 (update_moments float_late_group [0.25%float]
                                        (state_of float_late_world 1)) w1
    /\ step_count w1 0 = 1
    /\ step_count w' 0 = 1
    /\ heap w' 0 = heap w1 0
    /\ heap w' 1 = heap float_late_world 1
    /\ step_count w' 1 = 1.
Proof.
  cbv zeta.
  destruct (step_bias_correction_error (L := unit) None float_late_world
              float_late_world
              (fst (run [(default_group default_lr, 0)] float_late_world)) None
              [(default_group default_lr, 0)] [] float_late_group 1
              [0.25%float] (ValueError "math domain error" []))
    as (w' & Hstep & Hw' & Hheap & Hstate & Hp & _ & Hcount & _).
  - reflexivity.
  - reflexivity.
  - vm_compute. reflexivity.
  - vm_compute. intros Hin. apply list_elem_of_singleton in Hin. discriminate.
  - reflexivity.
  - vm_compute. reflexivity.
  - exists w'. split; [exact Hstep|]. split; [exact Hw'|].
    split; [vm_compute; reflexivity|]. split.
    + unfold step_count. rewrite (Hstate 0) by discriminate. vm_compute. reflexivity.
    + split; [apply Hheap|]. split; [exact Hp|exact Hcount].
Defined.

Lemma R_world_dense (weight_decay : R) :
  all_dense (mkWorld (heap (R_world weight_decay))
                     (mkOptimizer [R_group weight_decay] ∅) tt).
Proof.
  intros q idx vals. destruct q as [|q]; simpl; discriminate.
Defined.

Lemma constructed_never_raises_witness :
  snd (step (L := unit) None
         (steps 3 (mkWorld (heap (R_world 0)) (mkOptimizer [R_group 0] ∅) tt))) =
  inr None.
Proof.
  apply (constructed_never_raises [0] default_lr default_betas default_eps 0%R true
           (mkOptimizer [R_group 0] ∅) (heap (R_world 0)) tt 3
           (R_group_init 0) (R_world_dense 0)).
Defined.


Lemma zero_gradients_keep_parameters_witness :
  heap (steps 3 R_rest_world) 0 = heap R_rest_world 0.
Proof.
  apply (zero_gradients_keep_parameters 3 R_rest_world).
  - intros g Hg. apply list_elem_of_singleton in Hg. subst g. reflexivity.
  - intros g Hg. apply list_elem_of_singleton in Hg. subst g. simpl. lra.
  - intros q. split.
    + intros st Hst. simpl in Hst. rewrite lookup_empty in Hst. discriminate.
    + destruct q as [|q]; simpl; intros g Hg; inversion Hg; reflexivity.
Defined.

Lemma constant_gradient_moments_witness :
  state (self (steps 2 (R_world 0))) !! 0 =
  Some (mkState 2
          ((fun g => (1 - fst (g_betas (R_group 0)) ^ 2) * g)%R <$> [(1 / 2)%R])
          ((fun g => (1 - snd (g_betas (R_group 0)) ^ 2) * g ^ 2)%R <$> [(1 / 2)%R])).
Proof.
  apply (constant_gradient_moments (R_group 0) 0 (R_world 0) [(1 / 2)%R] 1);
    reflexivity.
Defined.

Lemma first_update_bounded_witness :
  exists x',
    snd (update_param (R_group 0) 0 (R_world 0)) = inr tt
    /\ p_data (heap (fst (update_param (R_group 0) 0 (R_world 0))) 0) !! 0 = Some x'
    /\ (Rabs (x' - 1) <= g_lr (R_group 0))%R
    /\ (0 <= 1 / 2 -> x' <= 1)%R
    /\ (1 / 2 <= 0 -> 1 <= x')%R.
Proof.
  apply (first_update_bounded (R_group 0) 0 (R_world 0) [(1 / 2)%R] 0 1%R (1 / 2)%R);
    try reflexivity.
  - apply R_group_passes.
  - simpl. lra.
Defined.

(** ** Exact arithmetic: weight decay alone *)

Lemma R_rest_decay (lr wd : R) (l : list R) :
  add_alpha l l (- lr * wd)%R = (fun x => (1 - lr * wd) * x)%R <$> l.
Proof.
  unfold add_alpha. rewrite zip_with_diag. apply list_fmap_ext.
  intros i x _. simpl. ring.
Qed.

Lemma R_at_rest_decay_visit {E : Type} (group : Group R) (p : nat) (w : World R E)
    (grad : list R) :
  passes_checks group = true ->
  p_grad (heap w p) = Some (DenseGrad grad) ->
  at_rest w p ->
  p_data (heap (fst (update_param group p w)) p) =
    (fun x => (1 - g_lr group * g_weight_decay group) * x)%R <$> p_data (heap w p)
  /\ at_rest (fst (update_param group p w)) p.
Proof.
  intros Hc Hg [Hst Hgr].
  pose proof (Hgr _ Hg) as Hz. inversion Hz as [Hgrad]. clear Hz.
  set (z := zeros_like (p_data (heap w p))) in *.
  assert (state_of w p = mkState (st_step (state_of w p)) z z) as Hso.
  { unfold state_of. destruct (state (self w) !! p) as [st|] eqn:Hs; simpl.
    - destruct (Hst st eq_refl) as [Hm Hv]. destruct st; simpl in *. subst. reflexivity.
    - reflexivity. }
  assert (update_moments group z (state_of w p) =
          mkState (S (st_step (state_of w p))) z z) as Hum.
  { rewrite Hso. unfold update_moments. simpl. f_equal.
    - apply R_zeros_moments.
    - replace (t_pow z 2) with z; [apply R_zeros_moments|].
      unfold t_pow, z, zeros_like. rewrite fmap_replicate. f_equal. simpl. ring. }
  destruct (R_step_size_ok group (st_step (state_of w p)) Hc) as [ss Hss].
  rewrite Hgrad in Hg.
  assert (forall st', moment_update group ss (mkState st' z z)
                        (p_data (heap w p)) = p_data (heap w p)) as Hmu
    by (intros st'; unfold moment_update, z, zeros_like;
        cbn [st_exp_avg st_exp_avg_sq]; apply R_rest_update).
  assert (decay group (p_data (heap w p)) =
          (fun x => (1 - g_lr group * g_weight_decay group) * x)%R <$> p_data (heap w p))
    as Hdec.
  { unfold decay. simpl. destruct (Req_dec_T (g_weight_decay group) 0) as [Hz|Hnz]; simpl.
    - rewrite Hz. rewrite <- (list_fmap_id (p_data (heap w p))) at 1.
      apply list_fmap_ext. intros i x _. simpl. ring.
    - apply R_rest_decay. }
  rewrite (update_param_dense group p w z Hg). cbv zeta. rewrite Hum.
  cbn [st_step]. rewrite Hss. cbn [fst]. rewrite Hmu, Hdec.
  split; [apply set_data_lookup|]. split.
  - intros st Hst'. rewrite set_data_lookup. simpl in Hst'.
    rewrite lookup_insert_eq in Hst'. inversion Hst'; subst.
    unfold z, zeros_like. rewrite length_fmap. split; reflexivity.
  - intros g' Hg'. rewrite set_data_lookup. simpl in Hg'.
    rewrite fn_lookup_insert in Hg'. simpl in Hg'. rewrite Hg in Hg'.
    inversion Hg'; subst. unfold z, zeros_like. rewrite length_fmap. reflexivity.
Qed.

(** Weight decay alone shrinks geometrically: a parameter whose gradient
    is zero and whose moments are zero, visited once per call under a
    configuration that passes the checks and has a positive epsilon,
    holds after [n] calls of [step] its start values times
    [(1 - lr * weight_decay)^n] (exact arithmetic). *)
Theorem weight_decay_geometric {E : Type}
    (group : Group R) (p : nat) (w : World R E) (grad : list R) (n : nat) :
  param_groups (self w) = [group] -> g_params group = [p] ->
  passes_checks group = true ->
  (0 < g_eps group)%R ->
  p_grad (heap w p) = Some (DenseGrad grad) ->
  at_rest w p ->
  p_data (heap (steps n w) p) =
  (fun x => (1 - g_lr group * g_weight_decay group) ^ n * x)%R <$> p_data (heap w p).
Proof.
  intros Hgs Hps Hc _ Hg Hr.
  assert (param_groups (self (steps n w)) = [group]
          /\ p_grad (heap (steps n w) p) = Some (DenseGrad grad)
          /\ at_rest (steps n w) p
          /\ p_data (heap (steps n w) p) =
             (fun x => (1 - g_lr group * g_weight_decay group) ^ n * x)%R
               <$> p_data (heap w p)) as (_ & _ & _ & Hd); [|exact Hd].
  induction n as [|n (IHg & IHgr & IHr & IHd)].
  - simpl. split; [exact Hgs|]. split; [exact Hg|]. split; [exact Hr|].
    rewrite <- (list_fmap_id (p_data (heap w p))) at 1.
    apply list_fmap_ext. intros i x _. simpl. ring.
  - rewrite steps_S_r, (step_single group p _ IHg Hps).
    destruct (update_param_frame group p (steps n w)) as (Hg' & _ & Hgr & _).
    destruct (R_at_rest_decay_visit group p (steps n w) grad Hc IHgr IHr) as [Hd Hr'].
    split; [congruence|]. split; [rewrite Hgr; exact IHgr|]. split; [exact Hr'|].
    rewrite Hd, IHd, <- list_fmap_compose. apply list_fmap_ext.
    intros i x _. simpl. ring.
Qed.

Lemma weight_decay_geometric_witness :
  p_data (heap (steps 2 R_decay_world) 0) =
  (fun x => (1 - g_lr (R_group (1 / 100)) * g_weight_decay (R_group (1 / 100))) ^ 2 * x)%R
    <$> p_data (heap R_decay_world 0).
Proof.
  apply (weight_decay_geometric (R_group (1 / 100)) 0 R_decay_world [0%R] 2);
    try reflexivity.
  - apply R_group_passes.
  - simpl. lra.
  - split.
    + intros st Hst. simpl in Hst. rewrite lookup_empty in Hst. discriminate.
    + simpl. intros g Hg. inversion Hg; reflexivity.
Defined.
